(** * Mapper cover kernel: a shallow embedding of [src/cover.cpp]

    The C++ file implements the binning kernel of the Mapper pipeline on top
    of Rcpp vectors and matrices.  The functions behind the cover builders,
    the membership index, the cover map, the edge compaction, the adjacency
    list and the box distances are translated below, loop by loop, into
    Rocq functions of the same names.

    Conventions of the embedding.
    - [int] values are modelled in [Z]; loop counters and sizes in [nat].
      The only arithmetic the code does on [int]s is [i + 1],
      [index - 1] and [target - pos - 1]; signed overflow is undefined in
      C++ and the statements below are about inputs far from it.
    - [double] arithmetic is kept abstract in the class [DoubleOps].  The
      code runs on the instance [binary64] (IEEE 754 double precision,
      Rocq's primitive floats).  The instance [exactQ] reads the same code
      over the rationals and is used for algebraic identities, where
      rounding is idealised away.
    - R's missing values.  [NA_integer_] is the [int] value [INT_MIN],
      which [valid_pairs] tests for.  A [double] that is [NA_real_] or
      NaN is recognised by [dis_nan]; the Rcpp sugar comparisons return
      [NA_LOGICAL] on one, the sugar [&] propagates it, an [if] on a
      logical entry takes it for true, and subsetting by a logical vector
      that holds one stops.  A [LogicalVector] is therefore a list of
      three-valued entries.
    - An Rcpp matrix is modelled by its number of columns and the list of
      its rows; a vector by the list of its entries.  A read outside a
      vector is undefined in C++, and [column] outside a matrix throws;
      both yield a fixed default here, and the statements that depend on
      such reads are about inputs of consistent shape.
    - A loop that pushes onto vectors or overwrites a work vector is a
      [fold_left] over the loop counter that threads those vectors. *)

From Stdlib Require Import String.
From Stdlib Require Import ZArith List Bool Lia.
From Stdlib Require Import QArith Qminmax Qabs Qfield Lqa.
From Stdlib Require Import Sorted Permutation.
From Stdlib Require Import PrimFloat Uint63.
Import ListNotations.

Set Warnings "-inexact-float".
Local Open Scope nat_scope.

(* ================================================================== *)
(** * Arithmetic on [double] *)

Class DoubleOps (double : Type) : Type := {
  of_int : Z -> double;                 (* implicit conversion int -> double *)
  dadd : double -> double -> double;
  dsub : double -> double -> double;
  dmul : double -> double -> double;
  ddiv : double -> double -> double;
  dabs : double -> double;              (* std::abs *)
  dleb : double -> double -> bool;      (* a <= b;  a >= b is [dleb b a] *)
  dis_nan : double -> bool;             (* R_isnancpp: NA_real_ or NaN *)
  epsilon : double                      (* std::numeric_limits<double>::epsilon() *)
}.

Definition float_of_int (z : Z) : float :=
  if (z <? 0)%Z
  then PrimFloat.opp (PrimFloat.of_uint63 (Uint63.of_Z (- z)))
  else PrimFloat.of_uint63 (Uint63.of_Z z).

#[export] Instance binary64 : DoubleOps float := {
  of_int := float_of_int;
  dadd := PrimFloat.add;
  dsub := PrimFloat.sub;
  dmul := PrimFloat.mul;
  ddiv := PrimFloat.div;
  dabs := PrimFloat.abs;
  dleb := PrimFloat.leb;
  dis_nan := PrimFloat.is_nan;
  epsilon := 0x1p-52%float
}.

Definition exactQ : DoubleOps Q := {|
  of_int := inject_Z;
  dadd := Qplus;
  dsub := Qminus;
  dmul := Qmult;
  ddiv := Qdiv;
  dabs := Qabs;
  dleb := Qle_bool;
  dis_nan := fun _ => false;
  epsilon := (1 # 4503599627370496)%Q   (* 2^-52 *)
|}.

(* ================================================================== *)
(** * Rcpp containers *)

(** The value of [NA_integer_], which [IntegerVector::is_na] tests for. *)
Definition NA_INTEGER : Z := (-2147483648)%Z.
Definition is_na (v : Z) : bool := (v =? NA_INTEGER)%Z.

Record Matrix (A : Type) : Type := mkMatrix {
  ncol : nat;
  mrows : list (list A)
}.
Arguments mkMatrix {A} _ _.
Arguments ncol {A} _.
Arguments mrows {A} _.

Definition nrow {A} (m : Matrix A) : nat := length (mrows m).

(** [m.row(i)] and [m(i, _)]. *)
Definition row {A} (m : Matrix A) (i : nat) : list A := nth i (mrows m) [].

(** [m.column(j)]; [dflt] stands for a read outside a row. *)
Definition column {A} (dflt : A) (m : Matrix A) (j : nat) : list A :=
  map (fun r => nth j r dflt) (mrows m).

(** Every row has [ncol] entries. *)
Definition well_shaped {A} (m : Matrix A) : Prop :=
  Forall (fun r => length r = ncol m) (mrows m).

(** Outcome of an exported function: a value, or the R error raised by
    [Rcpp::stop] or by a C++ exception that Rcpp turns into an R error. *)
Inductive result (A : Type) : Type :=
| Ok (a : A)
| Stop (msg : string).
Arguments Ok {A} _.
Arguments Stop {A} _.

(** An entry of a [LogicalVector]: the [int]s 1, 0 and [NA_LOGICAL]. *)
Inductive logical : Type := TRUE | FALSE | NA_LOGICAL.

Definition of_bool (b : bool) : logical := if b then TRUE else FALSE.

Definition is_na_logical (v : logical) : bool :=
  match v with NA_LOGICAL => true | _ => false end.

(** [if (v)] on an entry: [NA_LOGICAL] is [INT_MIN], which is not zero. *)
Definition truthy (v : logical) : bool :=
  match v with FALSE => false | _ => true end.

(* ================================================================== *)
(** * [which_true] *)

(** The loop [for (i = 0; i < nx; i++) if (x[i]) y.push_back(i+1)];
    [i] is the position of the head of [x], [y] the vector built so far. *)
Fixpoint which_true_from (i : nat) (x : list logical) (y : list Z) : list Z :=
  match x with
  | [] => y
  | b :: x' =>
      which_true_from (S i) x'
        (if truthy b then y ++ [(Z.of_nat i + 1)%Z] else y)
  end.

Definition which_true (x : list logical) : list Z := which_true_from 0 x [].

(* ================================================================== *)
(** * Vectorised range checks *)

Section RangeChecks.
Context {double : Type} {D : DoubleOps double}.

Definition NumericMatrix := Matrix double.

(** Rcpp sugar comparison [a <= b] of two doubles: missing when either
    operand is. *)
Definition cmp_le (a b : double) : logical :=
  if dis_nan a || dis_nan b then NA_LOGICAL else of_bool (dleb a b).

(** Rcpp sugar [&] on two entries: true when both are, else missing when
    either is, else false. *)
Definition and_logical (a b : logical) : logical :=
  match a, b with
  | TRUE, TRUE => TRUE
  | NA_LOGICAL, _ => NA_LOGICAL
  | _, NA_LOGICAL => NA_LOGICAL
  | _, _ => FALSE
  end.

(** Rcpp sugar: [v >= s], [v <= s] and the element-wise [&]. *)
Definition vec_ge (v : list double) (s : double) : list logical :=
  map (fun a => cmp_le s a) v.
Definition vec_le (v : list double) (s : double) : list logical :=
  map (fun a => cmp_le a s) v.
Definition lgl_and (a b : list logical) : list logical :=
  map (fun p : logical * logical => and_logical (fst p) (snd p))
      (combine a b).

(** The inner loop shared by all four membership functions:
    [for d_i < d: test = test & ((x.column(d_i) >= lower(d_i)) &
                                 (x.column(d_i) <= upper(d_i)))]. *)
Definition range_checks (x : NumericMatrix) (lower upper : nat -> double)
    (d : nat) (level_set_test : list logical) : list logical :=
  fold_left
    (fun test d_i =>
       lgl_and test
         (lgl_and (vec_ge (column (of_int 0) x d_i) (lower d_i))
                  (vec_le (column (of_int 0) x d_i) (upper d_i))))
    (seq 0 d) level_set_test.

(** [std::fill(test.begin(), test.end(), true)]. *)
Definition fill_true (test : list logical) : list logical :=
  repeat TRUE (length test).

Definition subset_size_error : string :=
  "logical subsetting requires vectors of identical size".
Definition subset_na_error : string :=
  "can't subset using a logical vector with NAs".

(** [res[test] = v]: logical subset assignment.  The positions to write
    are collected first, and collecting them stops on a size mismatch or
    on a missing entry of [test]. *)
Definition assign_where (res : list Z) (test : list logical) (v : Z)
  : result (list Z) :=
  if negb (length res =? length test) then Stop subset_size_error
  else if existsb is_na_logical test then Stop subset_na_error
  else Ok (map (fun p : Z * logical => if truthy (snd p) then v else fst p)
               (combine res test)).

(* ---------------------------------------------------------------- *)
(** * [constructLevelSetIndex] *)

Definition dim_error : string :=
  "dimension of points != dimension of bounds matrix / 2.".

Definition constructLevelSetIndex (x bnds : NumericMatrix)
  : result (list Z) :=
  if negb (ncol x =? ncol bnds / 2) then Stop dim_error else
  let n_level_sets := nrow bnds in
  let d := ncol bnds / 2 in
  let level_set_test := repeat TRUE (nrow x) in
  let res := repeat (-1)%Z (nrow x) in
  let eps := epsilon in
  match
    fold_left
      (fun (st : result (list Z * list logical)) i =>
         match st with
         | Stop msg => Stop msg
         | Ok (res, level_set_test) =>
             let ls_bnds := row bnds i in
             let level_set_test := fill_true level_set_test in
             let level_set_test :=
               range_checks x
                 (fun d_i => dsub (nth d_i ls_bnds (of_int 0)) eps)
                 (fun d_i => dadd (nth (d + d_i) ls_bnds (of_int 0)) eps)
                 d level_set_test in
             match assign_where res level_set_test (Z.of_nat i + 1)%Z with
             | Stop msg => Stop msg
             | Ok res => Ok (res, level_set_test)
             end
         end)
      (seq 0 n_level_sets) (Ok (res, level_set_test))
  with
  | Stop msg => Stop msg
  | Ok (res, _) => Ok res
  end.

(* ---------------------------------------------------------------- *)
(** * [constructIsoAlignedLevelSets] *)

(** An [IntegerVector] of point positions with its optional ["bounds"]
    attribute. *)
Record LevelSet : Type := mkLevelSet {
  ls_points : list Z;
  ls_attr_bounds : option (list double)
}.

Definition constructIsoAlignedLevelSets (x bnds : NumericMatrix)
    (save_bounds : bool) : result (list LevelSet) :=
  if negb (ncol x =? ncol bnds / 2) then Stop dim_error else
  let n_level_sets := nrow bnds in
  let d := ncol bnds / 2 in
  let level_set_test := repeat TRUE (nrow x) in
  Ok (fst
    (fold_left
       (fun (st : list LevelSet * list logical) i =>
          let (level_sets, level_set_test) := st in
          let ls_bnds := row bnds i in
          let level_set_test := fill_true level_set_test in
          let level_set_test :=
            range_checks x
              (fun d_i => nth d_i ls_bnds (of_int 0))
              (fun d_i => nth (d + d_i) ls_bnds (of_int 0))
              d level_set_test in
          let ls := which_true level_set_test in
          (level_sets ++
             [mkLevelSet ls (if save_bounds then Some ls_bnds else None)],
           level_set_test))
       (seq 0 n_level_sets) ([], level_set_test))).

(* ---------------------------------------------------------------- *)
(** * Rcpp sugar on numeric vectors *)

(** Element-wise binary operation: the result has the size of the left
    operand; [of_int 0] stands for a read past the end of an operand. *)
Definition vec_op (f : double -> double -> double) (a b : list double)
  : list double :=
  map (fun k => f (nth k a (of_int 0)) (nth k b (of_int 0)))
      (seq 0 (length a)).

(** [as<NumericVector>(v)] for an integer vector. *)
Definition as_numeric (v : list Z) : list double := map of_int v.

(** [m(r, _) = expr] on a matrix with [d] columns. *)
Definition row_assign (d : nat) (expr : list double) : list double :=
  map (fun k => nth k expr (of_int 0)) (seq 0 d).

(** A named list [points_in_level_set], [bounds]; [bounds] is a 2 x d
    matrix, row 0 the minima and row 1 the maxima. *)
Record BoundedLevelSet : Type := mkBoundedLevelSet {
  points_in_level_set : list Z;
  bounds : NumericMatrix
}.

(** [m(r, c)]. *)
Definition mget (m : NumericMatrix) (r c : nat) : double :=
  nth c (row m r) (of_int 0).

(* ---------------------------------------------------------------- *)
(** * [constructFixedLevelSets] *)

(** The bounds matrix [ls_bnds] of the level set requested by row [i] of
    [index_set]: the vectors computed before the loop
    ([base_interval_length], [filter_min], [interval_length], [eps]) and
    the first three statements of the loop body. *)
Definition fixed_ls_bnds (index_set : Matrix Z) (overlap : list double)
    (number_intervals : list Z) (filter_range : NumericMatrix)
    (filter_len : list double) (i : nat) : NumericMatrix :=
  let d := ncol index_set in
  let base_interval_length :=
    vec_op ddiv filter_len (as_numeric number_intervals) in
  let filter_min := row filter_range 0 in
  let interval_length :=
    vec_op dadd base_interval_length
      (vec_op ddiv (vec_op dmul base_interval_length overlap)
                   (map (fun o => dsub (of_int 1) o) overlap)) in
  let eps := map (fun l => ddiv l (of_int 2)) interval_length in
  let ls_idx := map (fun v => (v - 1)%Z) (row index_set i) in
  let level_set_centroid :=
    vec_op dadd
      (vec_op dadd filter_min
         (vec_op dmul (as_numeric ls_idx) base_interval_length))
      (map (fun b => ddiv b (of_int 2)) base_interval_length) in
  mkMatrix d [row_assign d (vec_op dsub level_set_centroid eps);
              row_assign d (vec_op dadd level_set_centroid eps)].

Definition constructFixedLevelSets (filter_values : NumericMatrix)
    (index_set : Matrix Z) (overlap : list double) (number_intervals : list Z)
    (filter_range : NumericMatrix) (filter_len : list double)
  : list BoundedLevelSet :=
  let n := nrow index_set in
  let d := ncol index_set in
  let level_set_test := repeat TRUE (nrow filter_values) in
  fst
    (fold_left
       (fun (st : list BoundedLevelSet * list logical) i =>
          let (level_sets, level_set_test) := st in
          let ls_bnds :=
            fixed_ls_bnds index_set overlap number_intervals filter_range
              filter_len i in
          let level_set_test := fill_true level_set_test in
          let level_set_test :=
            range_checks filter_values (mget ls_bnds 0) (mget ls_bnds 1)
              d level_set_test in
          (level_sets ++
             [mkBoundedLevelSet (which_true level_set_test) ls_bnds],
           level_set_test))
       (seq 0 n) ([], level_set_test)).

(* ---------------------------------------------------------------- *)
(** * [constructRestrainedLevelSets] *)

(** The bounds matrix [ls_bnds] of the level set requested by row [i] of
    [index_set]: the first four statements of the loop body. *)
Definition restrained_ls_bnds (index_set : Matrix Z)
    (interval_length step_size filter_min : list double) (i : nat)
  : NumericMatrix :=
  let d := ncol index_set in
  let ls_idx := map (fun v => (v - 1)%Z) (row index_set i) in
  let level_set_min :=
    vec_op dadd filter_min (vec_op dmul (as_numeric ls_idx) step_size) in
  mkMatrix d [row_assign d level_set_min;
              row_assign d (vec_op dadd level_set_min interval_length)].

Definition constructRestrainedLevelSets (filter_values : NumericMatrix)
    (index_set : Matrix Z) (interval_length step_size filter_min : list double)
  : list BoundedLevelSet :=
  let n := nrow index_set in
  let d := ncol index_set in
  let level_set_test := repeat TRUE (nrow filter_values) in
  fst
    (fold_left
       (fun (st : list BoundedLevelSet * list logical) i =>
          let (level_sets, level_set_test) := st in
          let ls_bnds :=
            restrained_ls_bnds index_set interval_length step_size
              filter_min i in
          let level_set_test := fill_true level_set_test in
          let level_set_test :=
            range_checks filter_values (mget ls_bnds 0) (mget ls_bnds 1)
              d level_set_test in
          (level_sets ++
             [mkBoundedLevelSet (which_true level_set_test) ls_bnds],
           level_set_test))
       (seq 0 n) ([], level_set_test)).

(* ---------------------------------------------------------------- *)
(** * [createCoverMap] *)

(** The innermost loop:
    [for (d_i = 0; d_i < d && all_intersect; ++d_i)
       all_intersect = all_intersect & (i(0,d_i) <= j(1,d_i) &&
                                        i(1,d_i) >= j(0,d_i))]. *)
Definition all_intersect (ls_bnds_i ls_bnds_j : NumericMatrix) (d : Z)
  : bool :=
  fold_left
    (fun (all : bool) d_i =>
       if all
       then all && (dleb (mget ls_bnds_i 0 d_i) (mget ls_bnds_j 1 d_i) &&
                    dleb (mget ls_bnds_j 0 d_i) (mget ls_bnds_i 1 d_i))
       else all)
    (seq 0 (Z.to_nat d)) true.

Definition empty_bounds : NumericMatrix := mkMatrix 0 [].

(** The two nested loops filling [from_lsfi] and [to_lsfi]. *)
Definition cover_map_loops (ls1 ls2 : list NumericMatrix) (d : Z)
  : list Z * list Z :=
  let n_ls_1 := length ls1 in
  let n_ls_2 := length ls2 in
  fold_left
    (fun (st : list Z * list Z) i =>
       fold_left
         (fun (st : list Z * list Z) j =>
            let (from_lsfi, to_lsfi) := st in
            let ls_bnds_i := nth i ls1 empty_bounds in
            let ls_bnds_j := nth j ls2 empty_bounds in
            if all_intersect ls_bnds_i ls_bnds_j d
            then (from_lsfi ++ [Z.of_nat i], to_lsfi ++ [Z.of_nat j])
            else (from_lsfi, to_lsfi))
         (seq 0 n_ls_2) st)
    (seq 0 n_ls_1) ([], []).

(** The result is an n x 2 numeric matrix whose row [i] is
    [(from_lsfi[i], to_lsfi[i])]. *)
Definition createCoverMap (ls1 ls2 : list NumericMatrix) (d : Z)
  : NumericMatrix :=
  let (from_lsfi, to_lsfi) := cover_map_loops ls1 ls2 d in
  let n := length from_lsfi in
  mkMatrix 2
    (map (fun i => [of_int (nth i from_lsfi 0%Z); of_int (nth i to_lsfi 0%Z)])
         (seq 0 n)).

(* ---------------------------------------------------------------- *)
(** * [dist_to_boxes] *)

(** [std::set_difference] on two sorted ranges. *)
Fixpoint set_difference (a : list Z) : list Z -> list Z :=
  match a with
  | [] => fun _ => []
  | x :: a' =>
      fix against (b : list Z) : list Z :=
        match b with
        | [] => x :: a'
        | y :: b' =>
            if (x <? y)%Z then x :: set_difference a' (y :: b')
            else if (y <? x)%Z then against b'
            else set_difference a' b'
        end
  end.

(** [std::iota(begin, end, 1)] on a vector of [n] entries. *)
Definition iota1 (n : nat) : list Z := map (fun k => (Z.of_nat k + 1)%Z) (seq 0 n).

(** The lambda given to [std::transform]. *)
Definition target_distance (interval_length : double) (pos : Z)
    (dtl dtu : double) (target_position : Z) : double :=
  let offset := dabs (dmul (of_int (target_position - pos - 1)) interval_length) in
  if (target_position <? pos)%Z then dadd dtl offset else dadd dtu offset.

Record BoxDistances : Type := mkBoxDistances {
  target_pos : list (list Z);
  target_dist : list (list double)
}.

(** [num_intervals <= 0] makes the allocation of the work vectors fail.
    A position outside [1 .. num_intervals] makes [std::set_difference]
    write [num_intervals] entries into the [num_intervals - 1] entries of
    [target_positions]; a write past the end is undefined behaviour and
    is modelled as a failure too. *)
Definition dist_to_boxes (positions : list Z) (interval_length : double)
    (num_intervals : Z) (dist_to_lower dist_to_upper : list double)
  : result BoxDistances :=
  if (num_intervals <? 1)%Z then Stop "negative length vectors are not allowed"
  else
  let all_positions := iota1 (Z.to_nat num_intervals) in
  let n := length positions in
  fold_left
    (fun (st : result BoxDistances) i =>
       match st with
       | Stop msg => Stop msg
       | Ok res =>
           let pos := nth i positions 0%Z in
           let dtl := nth i dist_to_lower (of_int 0) in
           let dtu := nth i dist_to_upper (of_int 0) in
           let current_position := [pos] in
           let target_positions :=
             set_difference all_positions current_position in
           if negb (length target_positions =? Z.to_nat (num_intervals - 1))
           then Stop "write past the end of target_positions"
           else
             let target_distances :=
               map (target_distance interval_length pos dtl dtu)
                   target_positions in
             Ok (mkBoxDistances (target_pos res ++ [target_positions])
                                (target_dist res ++ [target_distances]))
       end)
    (seq 0 n) (Ok (mkBoxDistances [] [])).

(* ---------------------------------------------------------------- *)
(** * Pointwise readings used in the statements *)

(** One point [p] against one box, dimension by dimension: the value of
    the test vector at the row of [p] once the inner loop has run. *)
Definition in_box (lower upper : nat -> double) (d : nat) (p : list double)
  : bool :=
  forallb
    (fun d_i => dleb (lower d_i) (nth d_i p (of_int 0)) &&
                dleb (nth d_i p (of_int 0)) (upper d_i))
    (seq 0 d).

(** Some comparison of the inner loop has a missing operand. *)
Definition tested_nan (lower upper : nat -> double) (d : nat)
    (p : list double) : bool :=
  existsb
    (fun d_i => dis_nan (lower d_i) || dis_nan (nth d_i p (of_int 0)) ||
                dis_nan (upper d_i))
    (seq 0 d).

(** The entry the inner loop leaves for [p]: missing as soon as one
    comparison is, else the outcome of the box test. *)
Definition box_test (lower upper : nat -> double) (d : nat)
    (p : list double) : logical :=
  if tested_nan lower upper d p then NA_LOGICAL
  else of_bool (in_box lower upper d p).

(** The entry [constructLevelSetIndex] computes for [p] and one bin. *)
Definition eps_test (ls_bnds : list double) (d : nat) (p : list double)
  : logical :=
  box_test (fun d_i => dsub (nth d_i ls_bnds (of_int 0)) epsilon)
           (fun d_i => dadd (nth (d + d_i) ls_bnds (of_int 0)) epsilon) d p.

(** No point has a missing value among its first [d] coordinates. *)
Definition points_defined (x : NumericMatrix) (d : nat) : Prop :=
  forall p, In p (mrows x) ->
  forall k, k < d -> dis_nan (nth k p (of_int 0)) = false.

(** No box has a missing bound. *)
Definition bounds_defined (bnds : NumericMatrix) : Prop :=
  forall i, i < nrow bnds -> forall k, k < ncol bnds / 2 ->
    dis_nan (nth k (row bnds i) (of_int 0)) = false /\
    dis_nan (nth (ncol bnds / 2 + k) (row bnds i) (of_int 0)) = false.

(** No box has a missing bound once widened by [epsilon]. *)
Definition widened_bounds_defined (bnds : NumericMatrix) : Prop :=
  forall i, i < nrow bnds -> forall k, k < ncol bnds / 2 ->
    dis_nan (dsub (nth k (row bnds i) (of_int 0)) epsilon) = false /\
    dis_nan (dadd (nth (ncol bnds / 2 + k) (row bnds i) (of_int 0)) epsilon)
      = false.

(** Some test of [constructLevelSetIndex], for some bin and some point,
    is missing. *)
Definition cover_test_nan (x bnds : NumericMatrix) : bool :=
  existsb
    (fun i =>
       existsb (fun p => is_na_logical (eps_test (row bnds i) (ncol bnds / 2) p))
               (mrows x))
    (seq 0 (nrow bnds)).


(** [p] lies in the box widened by [epsilon] on both sides. *)
Definition contains_eps (ls_bnds : list double) (d : nat) (p : list double)
  : Prop :=
  forall d_i, d_i < d ->
    dleb (dsub (nth d_i ls_bnds (of_int 0)) epsilon)
         (nth d_i p (of_int 0)) = true /\
    dleb (nth d_i p (of_int 0))
         (dadd (nth (d + d_i) ls_bnds (of_int 0)) epsilon) = true.

Definition contains_epsb (ls_bnds : list double) (d : nat) (p : list double)
  : bool :=
  in_box (fun d_i => dsub (nth d_i ls_bnds (of_int 0)) epsilon)
         (fun d_i => dadd (nth (d + d_i) ls_bnds (of_int 0)) epsilon) d p.

(** The reading in which the tolerance widens the upper bound only. *)
Definition contains_upper_eps (ls_bnds : list double) (d : nat)
    (p : list double) : bool :=
  in_box (fun d_i => nth d_i ls_bnds (of_int 0))
         (fun d_i => dadd (nth (d + d_i) ls_bnds (of_int 0)) epsilon) d p.

(** The last bin of the cover, in cover order, that contains [p] within
    the tolerance. *)
Definition last_matching (bnds : NumericMatrix) (p : list double)
  : option nat :=
  find (fun i => contains_epsb (row bnds i) (ncol bnds / 2) p)
       (rev (seq 0 (nrow bnds))).

(** The bin id reported for [p]: the last matching bin counted from 1,
    or the sentinel -1. *)
Definition index_of_point (bnds : NumericMatrix) (p : list double) : Z :=
  match last_matching bnds p with
  | Some i => (Z.of_nat i + 1)%Z
  | None => (-1)%Z
  end.

(** Two boxes, given as 2 x d matrices of bounds, meet in each of the
    first [d] dimensions. *)
Definition boxes_intersect (b1 b2 : NumericMatrix) (d : Z) : bool :=
  forallb
    (fun k => dleb (mget b1 0 k) (mget b2 1 k) &&
              dleb (mget b2 0 k) (mget b1 1 k))
    (seq 0 (Z.to_nat d)).

(** The positions [(i, j)], counted from 0, of the boxes of two covers
    that meet; [list_prod] enumerates cover 1 major, cover 2 minor. *)
Definition intersecting_pairs (ls1 ls2 : list NumericMatrix) (d : Z)
  : list (nat * nat) :=
  filter
    (fun p => boxes_intersect (nth (fst p) ls1 empty_bounds)
                              (nth (snd p) ls2 empty_bounds) d)
    (list_prod (seq 0 (length ls1)) (seq 0 (length ls2))).

(** The fixed grid in closed form, per dimension [k], for the grid
    coordinate [g] counted from 0. *)
Definition base_length (filter_len : list double) (number_intervals : list Z)
    (k : nat) : double :=
  ddiv (nth k filter_len (of_int 0)) (of_int (nth k number_intervals 0%Z)).

Definition half_width (filter_len : list double) (number_intervals : list Z)
    (overlap : list double) (k : nat) : double :=
  let b := base_length filter_len number_intervals k in
  let o := nth k overlap (of_int 0) in
  ddiv (dadd b (ddiv (dmul b o) (dsub (of_int 1) o))) (of_int 2).

Definition centroid (filter_min filter_len : list double)
    (number_intervals : list Z) (g : Z) (k : nat) : double :=
  let b := base_length filter_len number_intervals k in
  dadd (dadd (nth k filter_min (of_int 0)) (dmul (of_int g) b))
       (ddiv b (of_int 2)).

End RangeChecks.

Arguments NumericMatrix : clear implicits.
Arguments LevelSet : clear implicits.
Arguments BoundedLevelSet : clear implicits.
Arguments BoxDistances : clear implicits.

(** A strictly increasing list of positions, counted from 1, in a vector
    of [n] entries. *)
Definition increasing_positions (n : nat) (pts : list Z) : Prop :=
  StronglySorted Z.lt pts /\
  Forall (fun v => (1 <= v <= Z.of_nat n)%Z) pts.

(* ================================================================== *)
(** * [valid_pairs] *)

(** The two nested loops filling [from_index] and [to_index]; a row is
    read as [pairs[0]] followed by the candidates [pairs[1 .. d-1]]. *)
Definition valid_pairs_loops (level_set_pairs : Matrix Z)
  : list Z * list Z :=
  let n := nrow level_set_pairs in
  let d := ncol level_set_pairs in
  fold_left
    (fun (st : list Z * list Z) i =>
       let pairs := row level_set_pairs i in
       let from := nth 0 pairs 0%Z in
       fold_left
         (fun (st : list Z * list Z) j =>
            let (from_index, to_index) := st in
            if negb (is_na (nth j pairs 0%Z))
            then (from_index ++ [from], to_index ++ [nth j pairs 0%Z])
            else (from_index, to_index))
         (seq 1 (d - 1)) st)
    (seq 0 n) ([], []).

(** [reserve(n * (d - 1))] is given a negative [int] when the matrix has
    rows but no column; converted to [size_t] it exceeds [max_size()] and
    [std::length_error] is thrown.  Otherwise the result is the
    [n_valid] x 2 matrix of the pairs, modelled as a list of pairs. *)
Definition valid_pairs (level_set_pairs : Matrix Z) : result (list (Z * Z)) :=
  let n := Z.of_nat (nrow level_set_pairs) in
  let d := Z.of_nat (ncol level_set_pairs) in
  if (n * (d - 1) <? 0)%Z then Stop "vector::reserve" else
  let (from_index, to_index) := valid_pairs_loops level_set_pairs in
  let n_valid := length from_index in
  Ok (map (fun i => (nth i from_index 0%Z, nth i to_index 0%Z))
          (seq 0 n_valid)).

(* ================================================================== *)
(** * [edgelist_to_adjacencylist] *)

(** [std::map<int, std::vector<int>>], kept as the list of its entries in
    iteration order, that is by ascending key. *)
Definition vertex_map_t : Type := list (Z * list Z).

(** [m.lower_bound(k)]: the position of the first entry whose key is not
    less than [k]; [length m] is [m.end()]. *)
Fixpoint lower_bound (m : vertex_map_t) (k : Z) : nat :=
  match m with
  | [] => 0
  | (k', _) :: m' => if (k' <? k)%Z then S (lower_bound m' k) else 0
  end.

(** [it->second.push_back(to)]. *)
Fixpoint push_back_at (m : vertex_map_t) (it : nat) (to : Z) : vertex_map_t :=
  match m, it with
  | [], _ => []
  | (k, v) :: m', 0 => (k, v ++ [to]) :: m'
  | e :: m', S it' => e :: push_back_at m' it' to
  end.

(** [m.emplace_hint(it, entry)] for a hint that is the insertion point. *)
Definition emplace_hint (m : vertex_map_t) (it : nat) (entry : Z * list Z)
  : vertex_map_t :=
  firstn it m ++ entry :: skipn it m.

(** The loop body for one row [(from, to)] of the edge list. *)
Definition add_edge (vertex_map : vertex_map_t) (e : Z * Z) : vertex_map_t :=
  let (from, to) := e in
  let it := lower_bound vertex_map from in
  match nth_error vertex_map it with
  | Some (k, _) =>
      if (k =? from)%Z then push_back_at vertex_map it to
      else emplace_hint vertex_map it (from, [to])
  | None => emplace_hint vertex_map it (from, [to])
  end.

(** The edge list is an n x 2 integer matrix, read row by row as
    [(el(i,0), el(i,1))].  [wrap] turns the map into a named list in the
    iteration order of the map. *)
Definition edgelist_to_adjacencylist (el : list (Z * Z)) : vertex_map_t :=
  fold_left add_edge el [].

(* ================================================================== *)
(** * [which_cpp] and [findFirstEqual] *)

(** The loop [for (i = 0; i < nx; ++i) if (x[i] == value) y.push_back(i)];
    [i] is the position of the head of [x], [y] the vector built so far. *)
Fixpoint which_cpp_from (i : nat) (x : list Z) (value : Z) (y : list Z)
  : list Z :=
  match x with
  | [] => y
  | a :: x' =>
      which_cpp_from (S i) x' value
        (if (a =? value)%Z then y ++ [Z.of_nat i] else y)
  end.

Definition which_cpp (x : list Z) (value : Z) : list Z :=
  which_cpp_from 0 x value [].

(** [std::distance(start, std::find(start, x.end(), value))]: the number of
    entries before the first one equal to [value]; all of them when there
    is none. *)
Fixpoint find_distance (x : list Z) (value : Z) : nat :=
  match x with
  | [] => 0
  | a :: x' => if (a =? value)%Z then 0 else S (find_distance x' value)
  end.

Definition findFirstEqual (x : list Z) (value : Z) : Z :=
  (Z.of_nat (find_distance x value) + 1)%Z.

(* ================================================================== *)
(** * Readings of the table and edge-list functions *)

(** Lexicographic order on pairs of positions. *)
Definition pair_lt (p q : nat * nat) : Prop :=
  fst p < fst q \/ (fst p = fst q /\ snd p < snd q).

(** The candidate neighbours of a row that are present. *)
Definition candidates (pairs : list Z) : list Z :=
  filter (fun c => negb (is_na c)) (tl pairs).

(** The pairs (own id, candidate) of a table, row by row and, within a
    row, column by column. *)
Definition compact_pairs (table : Matrix Z) : list (Z * Z) :=
  flat_map (fun pairs => map (fun c => (nth 0 pairs 0%Z, c)) (candidates pairs))
           (mrows table).

(** The number of entries of the candidate columns that are not the
    sentinel. *)
Definition countNonSentinel (table : Matrix Z) : nat :=
  length (filter (fun c => negb (is_na c)) (flat_map (@tl Z) (mrows table))).

(** The destinations of the edges that leave [k], in edge-list order. *)
Definition destinations (el : list (Z * Z)) (k : Z) : list Z :=
  map snd (filter (fun e => (fst e =? k)%Z) el).

(** One turn of the loop of [edgelist_to_adjacencylist] in a single pass
    over the entries. *)
Fixpoint insert_edge (m : vertex_map_t) (from to : Z) : vertex_map_t :=
  match m with
  | [] => [(from, [to])]
  | (k, v) :: m' =>
      if (k <? from)%Z then (k, v) :: insert_edge m' from to
      else if (k =? from)%Z then (k, v ++ [to]) :: m'
      else (from, [to]) :: (k, v) :: m'
  end.

(** What the map holds once the edges [el] are in: keys in strictly
    ascending order, one key per source of [el], and under a key the
    destinations of its edges in edge-list order. *)
Definition adjacency_of (el : list (Z * Z)) (m : vertex_map_t) : Prop :=
  StronglySorted Z.lt (map fst m) /\
  (forall k, In k (map fst m) <-> In k (map fst el)) /\
  (forall k v, In (k, v) m -> v = destinations el k).

(** The edges an adjacency list stands for: under every key, one edge per
    destination. *)
Definition adjacency_edges (m : vertex_map_t) : list (Z * Z) :=
  flat_map (fun entry => map (pair (fst entry)) (snd entry)) m.

(* ================================================================== *)
(** * The fixed grid over the rationals *)

(** The width of the intersection, along dimension [k], of the boxes of
    two level sets. *)
Definition overlap_along (a b : BoundedLevelSet Q) (k : nat) : Q :=
  Qmin (mget (D := exactQ) (bounds a) 1 k) (mget (D := exactQ) (bounds b) 1 k) -
  Qmax (mget (D := exactQ) (bounds a) 0 k) (mget (D := exactQ) (bounds b) 0 k).

(* ================================================================== *)
(** * Sample inputs in binary64 *)

(** Three points on a line and a cover of two touching unit boxes. *)
Definition sample_points : NumericMatrix float :=
  mkMatrix 1 [[0.5]; [1]; [3]]%float.
Definition sample_cover : NumericMatrix float :=
  mkMatrix 2 [[0; 1]; [1; 2]]%float.

(** The scenario of the specification: one filter dimension with range
    [0, 10] and length 10, five intervals, overlap 0.2. *)
Definition scenario_range : NumericMatrix float := mkMatrix 1 [[0]; [10]]%float.
Definition scenario_bounds (index_set : Matrix Z) : list (NumericMatrix float) :=
  map bounds
    (constructFixedLevelSets sample_points index_set [0.2%float] [5%Z]
       scenario_range [10%float]).

(** The same scenario over the rationals. *)
Definition scenario_sets_Q : list (BoundedLevelSet Q) :=
  constructFixedLevelSets (D := exactQ) (mkMatrix 1 [])
    (mkMatrix 1 [[1%Z]; [2%Z]]) [1 # 5]%Q [5%Z] (mkMatrix 1 [[0]; [10]]%Q)
    [10]%Q.

(** The unit box [0, 1], one point just below it and one just above it,
    each at distance [epsilon] from the box. *)
Definition unit_box : NumericMatrix float := mkMatrix 2 [[0; 1]]%float.
Definition point_below : NumericMatrix float :=
  mkMatrix 1 [[-0x1p-52]]%float.

(** Two points on a line, the first with a missing coordinate. *)
Definition points_with_nan : NumericMatrix float :=
  mkMatrix 1 [[PrimFloat.nan]; [0.5%float]].

(** The interval [0, 1] as a 2 x 1 matrix of bounds. *)
Definition unit_interval : NumericMatrix float := mkMatrix 1 [[0]; [1]]%float.

(** A table of three bins with two candidate columns. *)
Definition sample_table : Matrix Z :=
  mkMatrix 3 [[1; 2; NA_INTEGER]; [2; NA_INTEGER; 3];
              [3; NA_INTEGER; NA_INTEGER]]%Z.

(* ================================================================== *)
(** * Properties of the membership functions *)

Section MembershipProperties.
Context {double : Type} {D : DoubleOps double}.

Lemma which_true_from_acc : forall x i y,
  which_true_from i x y = y ++ which_true_from i x [].
Proof.
  induction x as [|b x IH]; intros i y; simpl.
  - now rewrite app_nil_r.
  - destruct (truthy b); [|apply IH].
    rewrite (IH (S i) (y ++ _)), (IH (S i) [_]).
    now rewrite <- app_assoc.
Qed.

Lemma which_true_from_cons : forall b x i,
  which_true_from i (b :: x) [] =
  (if truthy b then [(Z.of_nat i + 1)%Z] else []) ++
  which_true_from (S i) x [].
Proof.
  intros b x i; simpl. destruct (truthy b); [|reflexivity].
  now rewrite which_true_from_acc.
Qed.

Lemma In_which_true_from : forall x i v,
  In v (which_true_from i x []) <->
  exists r, r < length x /\ truthy (nth r x FALSE) = true /\
            v = (Z.of_nat (i + r) + 1)%Z.
Proof.
  induction x as [|b x IH]; intros i v.
  - simpl; split; [tauto | intros (r & Hr & _); lia].
  - rewrite which_true_from_cons, in_app_iff, IH. split.
    + intros [Hv | (r & Hr & Hb & Hv)].
      * destruct (truthy b) eqn:Eb; [|contradiction].
        destruct Hv as [<- | []].
        exists 0; simpl; repeat split; auto; lia.
      * exists (S r); simpl; repeat split; auto; lia.
    + intros (r & Hr & Hb & Hv). destruct r as [|r]; simpl in *.
      * left. rewrite Hb; left. lia.
      * right. exists r; repeat split; auto; lia.
Qed.

Lemma which_true_from_sorted : forall x i,
  StronglySorted Z.lt (which_true_from i x []).
Proof.
  induction x as [|b x IH]; intros i.
  - constructor.
  - rewrite which_true_from_cons. destruct (truthy b); simpl; [|apply IH].
    constructor; [apply IH|].
    apply Forall_forall; intros v Hv.
    apply In_which_true_from in Hv as (r & _ & _ & ->). lia.
Qed.

(** [which_true] lists the positions, counted from 1, of the entries that
    are not false. *)
Lemma In_which_true : forall x v,
  In v (which_true x) <->
  exists r, r < length x /\ truthy (nth r x FALSE) = true /\
            v = (Z.of_nat r + 1)%Z.
Proof. intros; apply In_which_true_from. Qed.

Lemma which_true_sorted : forall x, StronglySorted Z.lt (which_true x).
Proof. intros; apply which_true_from_sorted. Qed.

Lemma which_true_range : forall x,
  Forall (fun v => (1 <= v <= Z.of_nat (length x))%Z) (which_true x).
Proof.
  intros x; apply Forall_forall; intros v Hv.
  apply In_which_true in Hv as (r & Hr & _ & ->). lia.
Qed.

Lemma combine_map_same : forall {A B C} (f : A -> B) (g : A -> C) l,
  combine (map f l) (map g l) = map (fun a => (f a, g a)) l.
Proof. induction l; simpl; congruence. Qed.

Lemma lgl_and_map : forall {A} (f g : A -> logical) l,
  lgl_and (map f l) (map g l) = map (fun a => and_logical (f a) (g a)) l.
Proof.
  intros; unfold lgl_and. now rewrite combine_map_same, map_map.
Qed.

(** The test of one dimension for one point. *)
Lemma dimension_test : forall (lo x up : double),
  and_logical (cmp_le lo x) (cmp_le x up) =
  if dis_nan lo || dis_nan x || dis_nan up then NA_LOGICAL
  else of_bool (dleb lo x && dleb x up).
Proof.
  intros lo x up. unfold cmp_le.
  destruct (dis_nan lo), (dis_nan x), (dis_nan up),
           (dleb lo x), (dleb x up); reflexivity.
Qed.

(** Folding [&] over the dimensions: a missing entry stays missing, and so
    does the result as soon as one test is missing. *)
Lemma and_logical_fold : forall (nan t : nat -> bool) ds (a : logical),
  fold_left
    (fun acc k =>
       and_logical acc (if nan k then NA_LOGICAL else of_bool (t k)))
    ds a =
  match a with
  | NA_LOGICAL => NA_LOGICAL
  | TRUE => if existsb nan ds then NA_LOGICAL else of_bool (forallb t ds)
  | FALSE => if existsb nan ds then NA_LOGICAL else FALSE
  end.
Proof.
  intros nan t ds; induction ds as [|k ds IH]; intros a; simpl.
  - now destruct a.
  - rewrite IH. destruct a, (nan k), (t k); simpl; reflexivity.
Qed.

Lemma range_checks_from : forall (x : NumericMatrix double) lower upper ds
    (f : list double -> logical),
  fold_left
    (fun test d_i =>
       lgl_and test
         (lgl_and (vec_ge (column (of_int 0) x d_i) (lower d_i))
                  (vec_le (column (of_int 0) x d_i) (upper d_i))))
    ds (map f (mrows x)) =
  map (fun p =>
         fold_left
           (fun acc k =>
              and_logical acc
                (if dis_nan (lower k) || dis_nan (nth k p (of_int 0)) ||
                    dis_nan (upper k)
                 then NA_LOGICAL
                 else of_bool (dleb (lower k) (nth k p (of_int 0)) &&
                               dleb (nth k p (of_int 0)) (upper k))))
           ds (f p))
      (mrows x).
Proof.
  intros x lower upper ds; induction ds as [|d0 ds IH]; intros f; simpl.
  - reflexivity.
  - unfold vec_ge, vec_le, column. rewrite !map_map, !lgl_and_map.
    rewrite IH. apply map_ext; intros p. now rewrite dimension_test.
Qed.

(** After [std::fill], the inner loop leaves in the test vector, row by
    row, the entry [box_test] of that point. *)
Lemma range_checks_spec : forall (x : NumericMatrix double) lower upper d,
  range_checks x lower upper d (repeat TRUE (nrow x)) =
  map (box_test lower upper d) (mrows x).
Proof.
  intros. unfold range_checks, nrow.
  replace (repeat TRUE (length (mrows x)))
    with (map (fun _ : list double => TRUE) (mrows x))
    by (induction (mrows x); simpl; congruence).
  rewrite range_checks_from. apply map_ext; intros p.
  rewrite (and_logical_fold
             (fun k => dis_nan (lower k) || dis_nan (nth k p (of_int 0)) ||
                       dis_nan (upper k))
             (fun k => dleb (lower k) (nth k p (of_int 0)) &&
                       dleb (nth k p (of_int 0)) (upper k))).
  reflexivity.
Qed.

(** The outer loops of the three level-set constructors: each turn
    refills the test vector, runs the range checks [G i] and appends
    [F i test]. *)
Lemma loop_collect : forall {B} (F : nat -> list logical -> B)
    (G : nat -> list logical -> list logical) m,
  (forall i, length (G i (repeat TRUE m)) = m) ->
  forall idx acc test, length test = m ->
  fst (fold_left
         (fun (st : list B * list logical) i =>
            let (acc, test) := st in
            (acc ++ [F i (G i (fill_true test))], G i (fill_true test)))
         idx (acc, test)) =
  acc ++ map (fun i => F i (G i (repeat TRUE m))) idx.
Proof.
  intros B F G m HG idx; induction idx as [|i idx IH]; intros acc test Hlen.
  - simpl. now rewrite app_nil_r.
  - simpl.
    replace (fill_true test) with (repeat TRUE m)
      by (unfold fill_true; now rewrite Hlen).
    rewrite IH by apply HG. now rewrite <- app_assoc.
Qed.

Lemma range_checks_length : forall (x : NumericMatrix double) lower upper d,
  length (range_checks x lower upper d (repeat TRUE (nrow x))) = nrow x.
Proof. intros. rewrite range_checks_spec. apply length_map. Qed.

(** [constructIsoAlignedLevelSets], bin by bin. *)
Lemma constructIsoAlignedLevelSets_spec :
  forall (x bnds : NumericMatrix double) save_bounds,
  ncol x = ncol bnds / 2 ->
  constructIsoAlignedLevelSets x bnds save_bounds =
  Ok (map
        (fun i =>
           mkLevelSet
             (which_true
                (map (box_test (fun d_i => nth d_i (row bnds i) (of_int 0))
                        (fun d_i => nth (ncol bnds / 2 + d_i) (row bnds i)
                                        (of_int 0))
                        (ncol bnds / 2)) (mrows x)))
             (if save_bounds then Some (row bnds i) else None))
        (seq 0 (nrow bnds))).
Proof.
  intros x bnds sb Hdim. unfold constructIsoAlignedLevelSets.
  rewrite Hdim, Nat.eqb_refl. cbn [negb]. f_equal.
  pose proof
    (loop_collect
       (fun i t => mkLevelSet (which_true t)
                     (if sb then Some (row bnds i) else None))
       (fun i t =>
          range_checks x (fun d_i => nth d_i (row bnds i) (of_int 0))
            (fun d_i => nth (ncol bnds / 2 + d_i) (row bnds i) (of_int 0))
            (ncol bnds / 2) t)
       (nrow x) (fun i => range_checks_length x _ _ _)
       (seq 0 (nrow bnds)) [] (repeat TRUE (nrow x))
       (repeat_length _ _)) as H.
  cbv beta in H. etransitivity; [exact H|]. cbn [app].
  apply map_ext; intros i. now rewrite range_checks_spec.
Qed.

(** [constructFixedLevelSets], bin by bin. *)
Lemma constructFixedLevelSets_spec :
  forall (fv : NumericMatrix double) index_set overlap number_intervals
         filter_range filter_len,
  constructFixedLevelSets fv index_set overlap number_intervals
    filter_range filter_len =
  map (fun i =>
         let ls_bnds :=
           fixed_ls_bnds index_set overlap number_intervals filter_range
             filter_len i in
         mkBoundedLevelSet
           (which_true
              (map (box_test (mget ls_bnds 0) (mget ls_bnds 1)
                      (ncol index_set))
                   (mrows fv)))
           ls_bnds)
      (seq 0 (nrow index_set)).
Proof.
  intros. unfold constructFixedLevelSets.
  pose proof
    (loop_collect
       (fun i t =>
          mkBoundedLevelSet (which_true t)
            (fixed_ls_bnds index_set overlap number_intervals filter_range
               filter_len i))
       (fun i t =>
          range_checks fv
            (mget (fixed_ls_bnds index_set overlap number_intervals
                     filter_range filter_len i) 0)
            (mget (fixed_ls_bnds index_set overlap number_intervals
                     filter_range filter_len i) 1)
            (ncol index_set) t)
       (nrow fv) (fun i => range_checks_length fv _ _ _)
       (seq 0 (nrow index_set)) [] (repeat TRUE (nrow fv))
       (repeat_length _ _)) as H.
  cbv beta in H. etransitivity; [exact H|]. cbn [app].
  apply map_ext; intros i. cbv zeta. now rewrite range_checks_spec.
Qed.

(** [constructRestrainedLevelSets], bin by bin. *)
Lemma constructRestrainedLevelSets_spec :
  forall (fv : NumericMatrix double) index_set interval_length step_size
         filter_min,
  constructRestrainedLevelSets fv index_set interval_length step_size
    filter_min =
  map (fun i =>
         let ls_bnds :=
           restrained_ls_bnds index_set interval_length step_size
             filter_min i in
         mkBoundedLevelSet
           (which_true
              (map (box_test (mget ls_bnds 0) (mget ls_bnds 1)
                      (ncol index_set))
                   (mrows fv)))
           ls_bnds)
      (seq 0 (nrow index_set)).
Proof.
  intros. unfold constructRestrainedLevelSets.
  pose proof
    (loop_collect
       (fun i t =>
          mkBoundedLevelSet (which_true t)
            (restrained_ls_bnds index_set interval_length step_size
               filter_min i))
       (fun i t =>
          range_checks fv
            (mget (restrained_ls_bnds index_set interval_length step_size
                     filter_min i) 0)
            (mget (restrained_ls_bnds index_set interval_length step_size
                     filter_min i) 1)
            (ncol index_set) t)
       (nrow fv) (fun i => range_checks_length fv _ _ _)
       (seq 0 (nrow index_set)) [] (repeat TRUE (nrow fv))
       (repeat_length _ _)) as H.
  cbv beta in H. etransitivity; [exact H|]. cbn [app].
  apply map_ext; intros i. cbv zeta. now rewrite range_checks_spec.
Qed.

Lemma in_box_true : forall lower upper d (p : list double),
  in_box lower upper d p = true <->
  forall d_i, d_i < d ->
    dleb (lower d_i) (nth d_i p (of_int 0)) = true /\
    dleb (nth d_i p (of_int 0)) (upper d_i) = true.
Proof.
  intros. unfold in_box. rewrite forallb_forall. split.
  - intros H d_i Hd. apply andb_true_iff, H, in_seq. lia.
  - intros H d_i Hd. apply andb_true_iff, H. apply in_seq in Hd. lia.
Qed.

Lemma contains_epsb_true : forall ls_bnds d (p : list double),
  contains_epsb ls_bnds d p = true <-> contains_eps ls_bnds d p.
Proof. intros. apply in_box_true. Qed.

Lemma tested_nan_false : forall lower upper d (p : list double),
  tested_nan lower upper d p = false <->
  forall k, k < d ->
    dis_nan (lower k) = false /\ dis_nan (nth k p (of_int 0)) = false /\
    dis_nan (upper k) = false.
Proof.
  intros. unfold tested_nan. split.
  - intros H k Hk.
    assert (Hin : In k (seq 0 d)) by (apply in_seq; lia).
    destruct (dis_nan (lower k)) eqn:E1, (dis_nan (nth k p (of_int 0))) eqn:E2,
             (dis_nan (upper k)) eqn:E3; auto;
      exfalso;
      assert (Ht : existsb
                (fun d_i => dis_nan (lower d_i) || dis_nan (nth d_i p (of_int 0))
                            || dis_nan (upper d_i)) (seq 0 d) = true)
        by (apply existsb_exists; exists k; split;
            [exact Hin | now rewrite E1, E2, E3]);
      congruence.
  - intros H.
    destruct (existsb _ (seq 0 d)) eqn:E; [|reflexivity].
    apply existsb_exists in E as (k & Hk & Hnan). apply in_seq in Hk.
    destruct (H k) as (H1 & H2 & H3); [lia|].
    now rewrite H1, H2, H3 in Hnan.
Qed.

(** Without a missing operand the entry of a point is the outcome of the
    two-valued box test. *)
Lemma box_test_defined : forall lower upper d (p : list double),
  tested_nan lower upper d p = false ->
  box_test lower upper d p = of_bool (in_box lower upper d p).
Proof. intros. unfold box_test. now rewrite H. Qed.

Lemma truthy_of_bool : forall b, truthy (of_bool b) = b.
Proof. now intros []. Qed.

Lemma is_na_box_test : forall lower upper d (p : list double),
  is_na_logical (box_test lower upper d p) = tested_nan lower upper d p.
Proof.
  intros. unfold box_test.
  destruct (tested_nan lower upper d p); [reflexivity|].
  now destruct (in_box lower upper d p).
Qed.

Lemma In_which_true_map : forall {A} (f : A -> logical) l v,
  In v (which_true (map f l)) <->
  exists r a, nth_error l r = Some a /\ truthy (f a) = true /\
              v = (Z.of_nat r + 1)%Z.
Proof.
  intros A f l v. rewrite In_which_true. split.
  - intros (r & Hr & Hb & ->). rewrite length_map in Hr.
    destruct (nth_error l r) as [a|] eqn:E;
      [|apply nth_error_None in E; lia].
    exists r, a. repeat split; auto.
    rewrite <- Hb. f_equal. symmetry. apply nth_error_nth.
    now rewrite nth_error_map, E.
  - intros (r & a & E & Hb & ->). exists r. repeat split.
    + rewrite length_map. apply nth_error_Some. congruence.
    + rewrite <- Hb. f_equal. apply nth_error_nth.
      now rewrite nth_error_map, E.
Qed.

End MembershipProperties.

(* ================================================================== *)
(** * Properties of the disjoint index *)

Lemma map_fst_combine : forall {A B} (l : list A) (l' : list B),
  length l = length l' -> map fst (combine l l') = l.
Proof.
  induction l as [|a l IH]; intros [|b l'] H; simpl in *; try congruence.
  f_equal. apply IH. congruence.
Qed.

Lemma existsb_map : forall {A B} (f : B -> bool) (g : A -> B) l,
  existsb f (map g l) = existsb (fun a => f (g a)) l.
Proof. induction l; simpl; congruence. Qed.

Lemma existsb_false : forall {A} (f : A -> bool) l,
  existsb f l = false <-> forall a, In a l -> f a = false.
Proof.
  intros A f l. split.
  - intros H a Ha. destruct (f a) eqn:E; [|reflexivity].
    assert (existsb f l = true) by (apply existsb_exists; eauto). congruence.
  - intros H. destruct (existsb f l) eqn:E; [|reflexivity].
    apply existsb_exists in E as (a & Ha & Hf). rewrite H in Hf; congruence.
Qed.

Lemma existsb_ext_in : forall {A} (f g : A -> bool) l,
  (forall a, In a l -> f a = g a) -> existsb f l = existsb g l.
Proof.
  induction l as [|a l IH]; intros H; simpl; [reflexivity|].
  rewrite (H a) by (now left). f_equal. apply IH. intros; apply H; now right.
Qed.

Lemma find_ext_in : forall {A} (f g : A -> bool) l,
  (forall a, In a l -> f a = g a) -> find f l = find g l.
Proof.
  induction l as [|a l IH]; intros H; simpl; [reflexivity|].
  rewrite (H a) by (now left). destruct (g a); [reflexivity|].
  apply IH. intros; apply H; now right.
Qed.

Lemma fold_last_match : forall (m : nat -> bool) idx a,
  fold_left (fun acc i => if m i then (Z.of_nat i + 1)%Z else acc) idx a =
  match find m (rev idx) with
  | Some i => (Z.of_nat i + 1)%Z
  | None => a
  end.
Proof.
  intros m idx; induction idx as [|i idx IH] using rev_ind; intros a.
  - reflexivity.
  - rewrite fold_left_app, rev_app_distr. simpl.
    destruct (m i); [reflexivity | apply IH].
Qed.

Lemma find_rev_seq_some : forall (m : nat -> bool) n i,
  find m (rev (seq 0 n)) = Some i <->
  i < n /\ m i = true /\ forall j, i < j < n -> m j = false.
Proof.
  intros m n; induction n as [|n IH]; intros i.
  - simpl. split; [discriminate | lia].
  - rewrite seq_S, rev_app_distr. simpl.
    destruct (m n) eqn:Hn.
    + split.
      * intros [= <-]. repeat split; auto; lia.
      * intros (Hi & Hm & Hlast).
        destruct (Nat.eq_dec i n) as [->|Hne]; [reflexivity|].
        rewrite Hlast in Hn by lia. discriminate.
    + rewrite IH. split.
      * intros (Hi & Hm & Hlast). repeat split; auto.
        intros j Hj. destruct (Nat.eq_dec j n) as [->|]; auto.
        apply Hlast; lia.
      * intros (Hi & Hm & Hlast).
        assert (i <> n) by congruence.
        repeat split; auto; try lia. intros j Hj; apply Hlast; lia.
Qed.

Lemma find_rev_seq_none : forall (m : nat -> bool) n,
  find m (rev (seq 0 n)) = None <-> forall i, i < n -> m i = false.
Proof.
  intros m n. split.
  - intros H i Hi. apply (find_none _ _ H).
    apply -> in_rev. apply in_seq. lia.
  - intros H. destruct (find m (rev (seq 0 n))) as [i|] eqn:E; auto.
    apply find_rev_seq_some in E as (Hi & Hm & _).
    rewrite H in Hm by assumption. discriminate.
Qed.

(** Subset assignment by a test vector computed row by row. *)
Lemma assign_where_map : forall {A} (f : A -> logical) res (rows : list A) v,
  length res = length rows ->
  assign_where res (map f rows) v =
  if existsb (fun a => is_na_logical (f a)) rows then Stop subset_na_error
  else Ok (map (fun p : Z * logical => if truthy (snd p) then v else fst p)
               (combine res (map f rows))).
Proof.
  intros A f res rows v Hlen. unfold assign_where.
  rewrite length_map, Hlen, Nat.eqb_refl. cbn [negb].
  now rewrite existsb_map.
Qed.

Lemma combine_assigned : forall {A} (f : A -> logical) (g : A -> bool)
    res (rows : list A) v,
  (forall a, In a rows -> truthy (f a) = g a) ->
  combine (map (fun p : Z * logical => if truthy (snd p) then v else fst p)
               (combine res (map f rows))) rows =
  map (fun rp => (if g (snd rp) then v else fst rp, snd rp))
      (combine res rows).
Proof.
  induction res as [|r res IH]; intros [|a rows] v H; simpl; try reflexivity.
  rewrite (H a) by (now left). f_equal. apply IH. intros; apply H; now right.
Qed.

Section DisjointIndexProperties.
Context {double : Type} {D : DoubleOps double}.

(** A test that is not missing is the two-valued test within the
    tolerance. *)
Lemma eps_test_defined : forall ls_bnds d (p : list double),
  is_na_logical (eps_test ls_bnds d p) = false ->
  truthy (eps_test ls_bnds d p) = contains_epsb ls_bnds d p.
Proof.
  intros ls_bnds d p H. unfold eps_test in *.
  rewrite is_na_box_test in H.
  rewrite box_test_defined by exact H. apply truthy_of_bool.
Qed.

Lemma eps_test_not_missing : forall (x bnds : NumericMatrix double) i p,
  points_defined x (ncol bnds / 2) -> widened_bounds_defined bnds ->
  i < nrow bnds -> In p (mrows x) ->
  is_na_logical (eps_test (row bnds i) (ncol bnds / 2) p) = false.
Proof.
  intros x bnds i p Hx Hb Hi Hp. unfold eps_test.
  rewrite is_na_box_test. apply tested_nan_false. intros k Hk.
  destruct (Hb i Hi k Hk) as [Hlo Hhi].
  split; [exact Hlo|]. split; [now apply Hx | exact Hhi].
Qed.

Lemma cover_test_defined : forall (x bnds : NumericMatrix double),
  points_defined x (ncol bnds / 2) -> widened_bounds_defined bnds ->
  cover_test_nan x bnds = false.
Proof.
  intros x bnds Hx Hb. unfold cover_test_nan.
  apply existsb_false. intros i Hi. apply in_seq in Hi.
  apply existsb_false. intros p Hp.
  apply (eps_test_not_missing x); auto; lia.
Qed.

(** The outer loop of [constructLevelSetIndex]: it stops at the first bin
    whose test vector holds a missing entry; otherwise the entry of a
    point is overwritten by every bin that contains it. *)
Lemma level_set_index_loop : forall (x bnds : NumericMatrix double) idx res test,
  length res = nrow x -> length test = nrow x ->
  match
    fold_left
      (fun (st : result (list Z * list logical)) i =>
         match st with
         | Stop msg => Stop msg
         | Ok (res, level_set_test) =>
             match
               assign_where res
                 (range_checks x
                    (fun d_i => dsub (nth d_i (row bnds i) (of_int 0)) epsilon)
                    (fun d_i => dadd (nth (ncol bnds / 2 + d_i) (row bnds i)
                                          (of_int 0)) epsilon)
                    (ncol bnds / 2) (fill_true level_set_test))
                 (Z.of_nat i + 1)%Z
             with
             | Stop msg => Stop msg
             | Ok res0 =>
                 Ok (res0,
                     range_checks x
                       (fun d_i => dsub (nth d_i (row bnds i) (of_int 0))
                                        epsilon)
                       (fun d_i => dadd (nth (ncol bnds / 2 + d_i)
                                             (row bnds i) (of_int 0)) epsilon)
                       (ncol bnds / 2) (fill_true level_set_test))
             end
         end)
      idx (Ok (res, test))
  with
  | Stop msg => Stop msg
  | Ok (res, _) => Ok res
  end =
  if existsb
       (fun i =>
          existsb (fun p => is_na_logical
                              (eps_test (row bnds i) (ncol bnds / 2) p))
                  (mrows x))
       idx
  then Stop subset_na_error
  else Ok (map (fun rp =>
                  fold_left
                    (fun acc i =>
                       if contains_epsb (row bnds i) (ncol bnds / 2) (snd rp)
                       then (Z.of_nat i + 1)%Z else acc)
                    idx (fst rp))
               (combine res (mrows x))).
Proof.
  intros x bnds idx; induction idx as [|i idx IH]; intros res test Hres Htest.
  - simpl. f_equal. symmetry. apply map_fst_combine. exact Hres.
  - cbn [fold_left existsb].
    replace (fill_true test) with (repeat TRUE (nrow x))
      by (unfold fill_true; now rewrite Htest).
    rewrite range_checks_spec.
    change (box_test
              (fun d_i => dsub (nth d_i (row bnds i) (of_int 0)) epsilon)
              (fun d_i => dadd (nth (ncol bnds / 2 + d_i) (row bnds i)
                                    (of_int 0)) epsilon)
              (ncol bnds / 2))
      with (eps_test (row bnds i) (ncol bnds / 2)).
    rewrite assign_where_map by exact Hres.
    destruct (existsb _ (mrows x)) eqn:Ena; cbn [orb].
    + clear. induction idx as [|j idx IH]; [reflexivity | exact IH].
    + rewrite IH.
      * rewrite (combine_assigned _
                   (contains_epsb (row bnds i) (ncol bnds / 2))).
        -- now rewrite map_map.
        -- intros p Hp. apply eps_test_defined.
           exact (proj1 (existsb_false _ _) Ena p Hp).
      * rewrite length_map, length_combine, length_map, Hres.
        apply Nat.min_id.
      * apply length_map.
Qed.

(** [constructLevelSetIndex], point by point. *)
Lemma constructLevelSetIndex_spec : forall (x bnds : NumericMatrix double),
  ncol x = ncol bnds / 2 ->
  constructLevelSetIndex x bnds =
  if cover_test_nan x bnds then Stop subset_na_error
  else Ok (map (index_of_point bnds) (mrows x)).
Proof.
  intros x bnds Hdim. unfold constructLevelSetIndex.
  rewrite Hdim, Nat.eqb_refl. cbn [negb]. cbv zeta.
  etransitivity;
    [apply (level_set_index_loop x bnds); apply repeat_length|].
  fold (cover_test_nan x bnds).
  destruct (cover_test_nan x bnds); [reflexivity|]. f_equal.
  unfold nrow.
  replace (combine (repeat (-1)%Z (length (mrows x))) (mrows x))
    with (map (fun p : list double => ((-1)%Z, p)) (mrows x))
    by (induction (mrows x); simpl; congruence).
  rewrite map_map. apply map_ext; intros p. cbn [fst snd].
  unfold index_of_point, last_matching. apply fold_last_match.
Qed.

Lemma constructLevelSetIndex_defined : forall (x bnds : NumericMatrix double),
  ncol x = ncol bnds / 2 ->
  points_defined x (ncol bnds / 2) -> widened_bounds_defined bnds ->
  constructLevelSetIndex x bnds = Ok (map (index_of_point bnds) (mrows x)).
Proof.
  intros x bnds Hdim Hx Hb.
  rewrite constructLevelSetIndex_spec by exact Hdim.
  now rewrite cover_test_defined.
Qed.

End DisjointIndexProperties.

(** Claim C4.  On points and bounds without missing values, in
    [constructLevelSetIndex] the bins are tested in cover order and every
    bin that contains a point overwrites the entry of that point: the
    entry is the 1-based id of the last bin, in cover order, that contains
    the point, and -1 when no bin does.  Appending a bin to the cover is
    one more subset assignment on the result: it overwrites the entries
    of the points the new bin contains and leaves the others. *)
Theorem disjoint_index_last_match_wins :
  forall {double} {D : DoubleOps double} (x bnds : NumericMatrix double),
  ncol x = ncol bnds / 2 ->
  points_defined x (ncol bnds / 2) -> widened_bounds_defined bnds ->
  exists res,
    constructLevelSetIndex x bnds = Ok res /\
    length res = nrow x /\
    (forall r p, nth_error (mrows x) r = Some p ->
       (forall i, i < nrow bnds ->
          contains_epsb (row bnds i) (ncol bnds / 2) p = true ->
          (forall j, i < j < nrow bnds ->
             contains_epsb (row bnds j) (ncol bnds / 2) p = false) ->
          nth_error res r = Some (Z.of_nat i + 1)%Z) /\
       ((forall i, i < nrow bnds ->
           contains_epsb (row bnds i) (ncol bnds / 2) p = false) ->
        nth_error res r = Some (-1)%Z)) /\
    (forall b,
       constructLevelSetIndex x (mkMatrix (ncol bnds) (mrows bnds ++ [b])) =
       assign_where res (map (eps_test b (ncol bnds / 2)) (mrows x))
         (Z.of_nat (nrow bnds) + 1)%Z).
Proof.
  intros double D x bnds Hdim Hx Hb.
  exists (map (index_of_point bnds) (mrows x)).
  split; [now apply constructLevelSetIndex_defined|].
  split; [apply length_map|]. split.
  - intros r p Hp. rewrite nth_error_map, Hp. cbn [option_map].
    unfold index_of_point, last_matching. split.
    + intros i Hi Hin Hlast.
      rewrite (proj2 (find_rev_seq_some _ _ i)); auto.
    + intros Hnone.
      rewrite (proj2 (find_rev_seq_none _ _)); auto.
  - intros b.
    set (ext := mkMatrix (ncol bnds) (mrows bnds ++ [b])).
    assert (Hrow : forall i, i < nrow bnds -> row ext i = row bnds i)
      by (intros i Hi; unfold row, ext; cbn [mrows];
          now rewrite app_nth1 by exact Hi).
    assert (Hlast : row ext (nrow bnds) = b)
      by (unfold row, ext, nrow; cbn [mrows];
          rewrite app_nth2, Nat.sub_diag by lia; reflexivity).
    assert (Hn : nrow ext = S (nrow bnds))
      by (unfold nrow, ext; cbn [mrows]; rewrite length_app; simpl; lia).
    rewrite constructLevelSetIndex_spec by exact Hdim.
    rewrite assign_where_map by (now rewrite length_map).
    unfold cover_test_nan. rewrite Hn, seq_S, existsb_app.
    cbn [existsb plus ncol ext]. rewrite Hlast, orb_false_r.
    replace (existsb _ (seq 0 (nrow bnds))) with (cover_test_nan x bnds)
      by (unfold cover_test_nan; apply existsb_ext_in; intros i Hi;
          apply in_seq in Hi; now rewrite Hrow by lia).
    rewrite cover_test_defined by assumption. cbn [orb].
    destruct (existsb _ (mrows x)) eqn:Ena; [reflexivity|]. f_equal.
    rewrite combine_map_same, map_map. cbn [fst snd].
    apply map_ext_in. intros p Hp.
    rewrite eps_test_defined by exact (proj1 (existsb_false _ _) Ena p Hp).
    unfold index_of_point, last_matching. rewrite Hn.
    rewrite seq_S, rev_app_distr. cbn [rev app find plus ncol ext].
    rewrite Hlast.
    destruct (contains_epsb b (ncol bnds / 2) p); [reflexivity|].
    erewrite find_ext_in; [reflexivity|].
    intros i Hi. apply in_rev, in_seq in Hi. now rewrite Hrow by lia.
Qed.

Lemma sample_points_defined : points_defined sample_points 1.
Proof.
  intros p Hp k Hk. destruct k as [|k]; [|lia].
  simpl in Hp. destruct Hp as [<-|[<-|[<-|[]]]]; reflexivity.
Defined.

Lemma sample_cover_defined :
  bounds_defined sample_cover /\ widened_bounds_defined sample_cover.
Proof.
  split; intros i Hi k Hk;
    change (nrow sample_cover) with 2 in Hi;
    change (ncol sample_cover / 2) with 1 in Hk;
    (destruct k as [|k]; [|lia]);
    (destruct i as [|[|i]]; [| |lia]); vm_compute; split; reflexivity.
Defined.

Lemma disjoint_index_last_match_wins_witness :
  ncol sample_points = ncol sample_cover / 2 /\
  exists res,
    constructLevelSetIndex sample_points sample_cover = Ok res /\
    nth_error res 1 = Some 2%Z /\ nth_error res 2 = Some (-1)%Z.
Proof.
  split; [reflexivity|].
  destruct (disjoint_index_last_match_wins sample_points sample_cover eq_refl
              sample_points_defined (proj2 sample_cover_defined))
    as (res & Hres & _ & Hpoints & _).
  exists res. split; [exact Hres|]. split.
  - apply (proj1 (Hpoints 1 [1%float] eq_refl) 1).
    + vm_compute; lia.
    + vm_compute; reflexivity.
    + intros j Hj. change (nrow sample_cover) with 2 in Hj. lia.
  - apply (proj2 (Hpoints 2 [3%float] eq_refl)).
    intros i Hi. change (nrow sample_cover) with 2 in Hi.
    destruct i as [|[|i]]; [reflexivity | reflexivity | lia].
Defined.

(** Claim C3, as the code has it.  On points and bounds without missing
    values [constructLevelSetIndex] widens a bin by one machine epsilon on
    both sides: a point is assigned bin [i] (1-based) exactly when every
    coordinate is at least the lower bound minus epsilon and at most the
    upper bound plus epsilon, and no later bin of the cover contains it in
    the same sense; it keeps -1 exactly when no bin does. *)
Theorem disjoint_index_two_sided_tolerance :
  forall {double} {D : DoubleOps double} (x bnds : NumericMatrix double),
  ncol x = ncol bnds / 2 ->
  points_defined x (ncol bnds / 2) -> widened_bounds_defined bnds ->
  exists res,
    constructLevelSetIndex x bnds = Ok res /\
    forall r p, nth_error (mrows x) r = Some p ->
      (forall i,
         nth_error res r = Some (Z.of_nat i + 1)%Z <->
         i < nrow bnds /\
         contains_eps (row bnds i) (ncol bnds / 2) p /\
         forall j, i < j < nrow bnds ->
           ~ contains_eps (row bnds j) (ncol bnds / 2) p) /\
      (nth_error res r = Some (-1)%Z <->
       forall i, i < nrow bnds ->
         ~ contains_eps (row bnds i) (ncol bnds / 2) p).
Proof.
  intros double D x bnds Hdim Hx Hb.
  exists (map (index_of_point bnds) (mrows x)).
  split; [now apply constructLevelSetIndex_defined|].
  intros r p Hp. rewrite nth_error_map, Hp. cbn [option_map].
  unfold index_of_point, last_matching.
  destruct (find _ (rev (seq 0 (nrow bnds)))) as [i0|] eqn:E.
  - apply find_rev_seq_some in E as (Hi0 & Hin & Hlast). split.
    + intros i. split.
      * intros [= Heq]. assert (i = i0) as -> by lia.
        split; [assumption|]. split; [now apply contains_epsb_true|].
        intros j Hj Hc. apply contains_epsb_true in Hc.
        rewrite Hlast in Hc by assumption. discriminate.
      * intros (Hi & Hc & Hl). f_equal.
        destruct (Nat.lt_trichotomy i i0) as [Hlt|[->|Hgt]]; auto.
        -- exfalso. apply (Hl i0); [lia|]. now apply contains_epsb_true.
        -- apply contains_epsb_true in Hc.
           rewrite Hlast in Hc by lia. discriminate.
    + split; [intros [= Heq]; lia|].
      intros Hnone. exfalso. apply (Hnone i0 Hi0).
      now apply contains_epsb_true.
  - pose proof (proj1 (find_rev_seq_none _ _) E) as Hnone. split.
    + intros i. split; [intros [= Heq]; lia|].
      intros (Hi & Hc & _). apply contains_epsb_true in Hc.
      rewrite Hnone in Hc by assumption. discriminate.
    + split; [|reflexivity].
      intros _ i Hi Hc. apply contains_epsb_true in Hc.
      rewrite Hnone in Hc by assumption. discriminate.
Qed.

Lemma point_below_defined :
  points_defined point_below 1 /\ widened_bounds_defined unit_box.
Proof.
  split.
  - intros p Hp k Hk. destruct k as [|k]; [|lia].
    simpl in Hp. destruct Hp as [<-|[]]. reflexivity.
  - intros i Hi k Hk. change (nrow unit_box) with 1 in Hi.
    change (ncol unit_box / 2) with 1 in Hk.
    destruct k as [|k]; [|lia]. destruct i as [|i]; [|lia].
    vm_compute. split; reflexivity.
Defined.

Lemma disjoint_index_two_sided_tolerance_witness :
  ncol point_below = ncol unit_box / 2 /\
  exists res, constructLevelSetIndex point_below unit_box = Ok res.
Proof.
  split; [reflexivity|].
  destruct (disjoint_index_two_sided_tolerance point_below unit_box eq_refl
              (proj1 point_below_defined) (proj2 point_below_defined))
    as (res & Hres & _).
  exists res. exact Hres.
Defined.

(** Claim C3 as stated fails: the point [-epsilon] is below the lower
    bound 0 of the unit box, so the test with the tolerance on the upper
    bound only rejects it, yet [constructLevelSetIndex] assigns it bin 1. *)
Lemma disjoint_index_lower_slack_counterexample :
  contains_upper_eps (row unit_box 0) 1 (row point_below 0) = false /\
  constructLevelSetIndex point_below unit_box = Ok [1%Z].
Proof. split; vm_compute; reflexivity. Qed.



(** Claim C10.  Every list of point indices returned by
    [constructIsoAlignedLevelSets], [constructFixedLevelSets] and
    [constructRestrainedLevelSets] is strictly increasing and holds
    positions between 1 and the number of points: it is sorted and has no
    duplicate. *)
Theorem level_set_points_strictly_increasing :
  forall {double} {D : DoubleOps double} (x bnds : NumericMatrix double)
         save_bounds index_set overlap number_intervals filter_range
         filter_len interval_length step_size filter_min,
  match constructIsoAlignedLevelSets x bnds save_bounds with
  | Ok sets =>
      Forall (fun ls => increasing_positions (nrow x) (ls_points ls)) sets
  | Stop _ => ncol x <> ncol bnds / 2
  end /\
  Forall (fun ls => increasing_positions (nrow x) (points_in_level_set ls))
    (constructFixedLevelSets x index_set overlap number_intervals
       filter_range filter_len) /\
  Forall (fun ls => increasing_positions (nrow x) (points_in_level_set ls))
    (constructRestrainedLevelSets x index_set interval_length step_size
       filter_min).
Proof.
  intros.
  assert (Hpos : forall f : list double -> logical,
            increasing_positions (nrow x) (which_true (map f (mrows x)))).
  { intros f. split; [apply which_true_sorted|].
    unfold nrow. rewrite <- (length_map f). apply which_true_range. }
  split; [|split].
  - destruct (Nat.eq_dec (ncol x) (ncol bnds / 2)) as [Hdim|Hdim].
    + rewrite constructIsoAlignedLevelSets_spec by exact Hdim.
      apply Forall_map, Forall_forall. intros i _. apply Hpos.
    + unfold constructIsoAlignedLevelSets.
      apply Nat.eqb_neq in Hdim. rewrite Hdim. cbn [negb].
      now apply Nat.eqb_neq.
  - rewrite constructFixedLevelSets_spec.
    apply Forall_map, Forall_forall. intros i _. apply Hpos.
  - rewrite constructRestrainedLevelSets_spec.
    apply Forall_map, Forall_forall. intros i _. apply Hpos.
Qed.

(* ================================================================== *)
(** * Properties of the grid builders *)

Section GridProperties.
Context {double : Type} {D : DoubleOps double}.

Lemma nth_map_seq : forall {B} (g : nat -> B) n k dflt,
  k < n -> nth k (map g (seq 0 n)) dflt = g k.
Proof.
  intros B g n k dflt Hk.
  rewrite (nth_indep _ dflt (g 0)) by (now rewrite length_map, length_seq).
  rewrite map_nth, seq_nth by assumption. reflexivity.
Qed.

Lemma nth_map_in : forall {A B} (g : A -> B) l k da db,
  k < length l -> nth k (map g l) db = g (nth k l da).
Proof.
  intros A B g l k da db Hk.
  rewrite (nth_indep _ db (g da)) by (now rewrite length_map).
  apply map_nth.
Qed.

Lemma vec_op_length : forall f (a b : list double),
  length (vec_op f a b) = length a.
Proof. intros. unfold vec_op. now rewrite length_map, length_seq. Qed.

Lemma nth_vec_op : forall f (a b : list double) k,
  k < length a ->
  nth k (vec_op f a b) (of_int 0) =
  f (nth k a (of_int 0)) (nth k b (of_int 0)).
Proof. intros. unfold vec_op. now rewrite nth_map_seq. Qed.

Lemma nth_row_assign : forall d (e : list double) k,
  k < d -> nth k (row_assign d e) (of_int 0) = nth k e (of_int 0).
Proof. intros. unfold row_assign. now rewrite nth_map_seq. Qed.

Lemma nth_as_numeric : forall v k,
  nth k (as_numeric v) (of_int 0) = of_int (nth k v 0%Z).
Proof. intros. unfold as_numeric. apply map_nth. Qed.

Lemma mget_min : forall d (r0 r1 : list double) k,
  mget (mkMatrix d [r0; r1]) 0 k = nth k r0 (of_int 0).
Proof. reflexivity. Qed.

Lemma mget_max : forall d (r0 r1 : list double) k,
  mget (mkMatrix d [r0; r1]) 1 k = nth k r1 (of_int 0).
Proof. reflexivity. Qed.

(** The bounds computed for one requested bin, in closed form: the grid
    coordinate is the entry of [index_set] minus one. *)
Lemma fixed_ls_bnds_formula :
  forall index_set overlap number_intervals (filter_range : NumericMatrix double)
         filter_len i k,
  k < ncol index_set -> k < length (row index_set i) ->
  k < length overlap -> k < length filter_len ->
  k < length (row filter_range 0) ->
  let g := (nth k (row index_set i) 0 - 1)%Z in
  let c := centroid (row filter_range 0) filter_len number_intervals g k in
  let h := half_width filter_len number_intervals overlap k in
  let ls_bnds := fixed_ls_bnds index_set overlap number_intervals
                   filter_range filter_len i in
  mget ls_bnds 0 k = dsub c h /\ mget ls_bnds 1 k = dadd c h.
Proof.
  intros index_set overlap ni fr fl i k Hd Hrow Hov Hfl Hmin g c h ls_bnds.
  assert (Hc : nth k
    (vec_op dadd
       (vec_op dadd (row fr 0)
          (vec_op dmul (as_numeric (map (fun v => (v - 1)%Z) (row index_set i)))
                  (vec_op ddiv fl (as_numeric ni))))
       (map (fun b => ddiv b (of_int 2)) (vec_op ddiv fl (as_numeric ni))))
    (of_int 0) = c).
  { rewrite !nth_vec_op
      by (rewrite ?vec_op_length, ?length_map; unfold as_numeric;
          rewrite ?length_map; assumption).
    rewrite (nth_map_in _ _ _ (of_int 0)) by (now rewrite vec_op_length).
    rewrite nth_vec_op by assumption.
    rewrite !nth_as_numeric.
    rewrite (nth_map_in _ _ _ 0%Z) by assumption.
    reflexivity. }
  assert (He : nth k
    (map (fun l => ddiv l (of_int 2))
       (vec_op dadd (vec_op ddiv fl (as_numeric ni))
          (vec_op ddiv (vec_op dmul (vec_op ddiv fl (as_numeric ni)) overlap)
                  (map (fun o => dsub (of_int 1) o) overlap))))
    (of_int 0) = h).
  { rewrite (nth_map_in _ _ _ (of_int 0)) by (now rewrite !vec_op_length).
    rewrite !nth_vec_op by (rewrite ?vec_op_length; assumption).
    rewrite (nth_map_in _ _ _ (of_int 0)) by assumption.
    rewrite nth_as_numeric. reflexivity. }
  unfold ls_bnds, fixed_ls_bnds. cbv zeta.
  rewrite mget_min, mget_max.
  split; rewrite nth_row_assign by assumption;
    rewrite nth_vec_op by (rewrite !vec_op_length; assumption);
    rewrite Hc, He; reflexivity.
Qed.

End GridProperties.

Lemma nth_error_map_seq : forall {B} (g : nat -> B) n i,
  i < n -> nth_error (map g (seq 0 n)) i = Some (g i).
Proof.
  intros B g n i Hi. rewrite nth_error_map.
  rewrite (nth_error_nth' _ 0) by (now rewrite length_seq).
  rewrite seq_nth by assumption. reflexivity.
Qed.

Lemma nth_error_map_seq_inv : forall {B} (g : nat -> B) n i v,
  nth_error (map g (seq 0 n)) i = Some v -> i < n /\ v = g i.
Proof.
  intros B g n i v H.
  assert (Hi : i < n).
  { rewrite <- (length_seq n 0), <- (length_map g).
    apply nth_error_Some. congruence. }
  rewrite nth_error_map_seq in H by assumption. split; congruence.
Qed.

(** Claim C1, as the code has it.  [constructFixedLevelSets] returns, for
    every requested bin and every dimension, the bounds centroid -/+
    halfWidth of the specification, where the grid coordinate is the
    entry of [index_set] minus one: the entries are 1-based.  In the
    scenario of the specification the index set [[1], [2]] gives the
    bounds [-0.25, 2.25] and [1.75, 4.25], whatever the filter values. *)
Theorem fixed_grid_bounds_one_based :
  (forall {double} {D : DoubleOps double} (fv : NumericMatrix double)
          index_set overlap number_intervals filter_range filter_len i k,
     i < nrow index_set -> k < ncol index_set ->
     k < length (row index_set i) -> k < length overlap ->
     k < length filter_len -> k < length (row filter_range 0) ->
     exists ls,
       nth_error (constructFixedLevelSets fv index_set overlap
                    number_intervals filter_range filter_len) i = Some ls /\
       let g := (nth k (row index_set i) 0 - 1)%Z in
       let c := centroid (row filter_range 0) filter_len number_intervals g k in
       let h := half_width filter_len number_intervals overlap k in
       mget (bounds ls) 0 k = dsub c h /\ mget (bounds ls) 1 k = dadd c h) /\
  (forall fv : NumericMatrix float,
     map bounds
       (constructFixedLevelSets fv (mkMatrix 1 [[1%Z]; [2%Z]]) [0.2%float]
          [5%Z] scenario_range [10%float]) =
     [mkMatrix 1 [[-0.25]; [2.25]]; mkMatrix 1 [[1.75]; [4.25]]]%float).
Proof.
  split.
  - intros double D fv index_set overlap ni fr fl i k Hi Hk Hrow Hov Hfl Hmin.
    rewrite constructFixedLevelSets_spec.
    eexists. split; [now apply nth_error_map_seq|].
    cbv zeta. cbn [bounds].
    now apply fixed_ls_bnds_formula.
  - intros fv. rewrite constructFixedLevelSets_spec, map_map.
    cbv zeta. cbn [bounds]. vm_compute. reflexivity.
Qed.

Lemma fixed_grid_bounds_one_based_witness :
  exists ls,
    nth_error (constructFixedLevelSets sample_points
                 (mkMatrix 1 [[1%Z]; [2%Z]]) [0.2%float] [5%Z]
                 scenario_range [10%float]) 1 = Some ls /\
    mget (bounds ls) 0 0 = 1.75%float /\ mget (bounds ls) 1 0 = 4.25%float.
Proof.
  destruct (proj1 fixed_grid_bounds_one_based float binary64 sample_points
              (mkMatrix 1 [[1%Z]; [2%Z]]) [0.2%float] [5%Z]
              scenario_range [10%float] 1 0)
    as (ls & Hls & Hlo & Hhi);
    [vm_compute; lia .. |].
  exists ls. split; [exact Hls|]. rewrite Hlo, Hhi.
  split; vm_compute; reflexivity.
Defined.

(** Claim C1 as stated fails: the index set [[0], [1]] of the scenario is
    read as the grid coordinates -1 and 0 and gives the bounds
    [-2.25, 0.25] and [-0.25, 2.25]. *)
Lemma fixed_grid_zero_based_counterexample :
  scenario_bounds (mkMatrix 1 [[0%Z]; [1%Z]]) =
    [mkMatrix 1 [[-2.25]; [0.25]]; mkMatrix 1 [[-0.25]; [2.25]]]%float /\
  scenario_bounds (mkMatrix 1 [[0%Z]; [1%Z]]) <>
    [mkMatrix 1 [[-0.25]; [2.25]]; mkMatrix 1 [[1.75]; [4.25]]]%float.
Proof.
  split; [vm_compute; reflexivity|].
  intros H.
  apply (f_equal (fun l =>
           PrimFloat.eqb (mget (nth 0 l empty_bounds) 0 0) (-2.25)%float)) in H.
  vm_compute in H. discriminate.
Qed.

(** Claim C2, as the code has it, in exact arithmetic.  Two bins of the
    fixed grid whose grid coordinates differ by 1 along dimension [k]
    intersect, along [k], in an interval of width
    overlap * baseLength / (1 - overlap): the fraction [overlap] of the
    full interval length, not of [baseLength]. *)
Theorem fixed_grid_adjacent_overlap :
  forall (fv : NumericMatrix Q) index_set overlap number_intervals
         filter_range filter_len i j k ls_i ls_j,
  k < ncol index_set ->
  k < length (row index_set i) -> k < length (row index_set j) ->
  k < length overlap -> k < length filter_len ->
  k < length (row filter_range 0) ->
  nth k (row index_set j) 0%Z = (nth k (row index_set i) 0 + 1)%Z ->
  (0 <= nth k overlap 0)%Q -> (nth k overlap 0 < 1)%Q ->
  (0 < nth k number_intervals 0)%Z -> (0 < nth k filter_len 0)%Q ->
  nth_error (constructFixedLevelSets (D := exactQ) fv index_set overlap
               number_intervals filter_range filter_len) i = Some ls_i ->
  nth_error (constructFixedLevelSets (D := exactQ) fv index_set overlap
               number_intervals filter_range filter_len) j = Some ls_j ->
  let o := nth k overlap 0%Q in
  let b := (nth k filter_len 0 / inject_Z (nth k number_intervals 0%Z))%Q in
  let length_i := (mget (D := exactQ) (bounds ls_i) 1 k -
                   mget (D := exactQ) (bounds ls_i) 0 k)%Q in
  (overlap_along ls_i ls_j k == o * b / (1 - o))%Q /\
  (overlap_along ls_i ls_j k == o * length_i)%Q /\
  (length_i == b / (1 - o))%Q.
Proof.
  intros fv index_set overlap ni fr fl i j k ls_i ls_j
         Hk Hri Hrj Hov Hfl Hmin Hadj Ho0 Ho1 Hn Hlen Hi Hj o b length_i.
  rewrite constructFixedLevelSets_spec in Hi, Hj.
  apply nth_error_map_seq_inv in Hi as [_ ->], Hj as [_ ->].
  unfold overlap_along, length_i. cbv zeta. cbn [bounds].
  destruct (fixed_ls_bnds_formula (D := exactQ) index_set overlap ni fr fl
              i k Hk Hri Hov Hfl Hmin) as [Hlo_i Hhi_i].
  destruct (fixed_ls_bnds_formula (D := exactQ) index_set overlap ni fr fl
              j k Hk Hrj Hov Hfl Hmin) as [Hlo_j Hhi_j].
  cbv zeta in Hlo_i, Hhi_i, Hlo_j, Hhi_j.
  rewrite Hlo_i, Hhi_i, Hlo_j, Hhi_j, Hadj.
  unfold centroid, half_width, base_length.
  cbn [dadd dsub dmul ddiv of_int exactQ].
  change (inject_Z 0) with 0%Q. change (inject_Z 1) with 1%Q.
  change (inject_Z 2) with 2%Q.
  replace (nth k (row index_set i) 0 + 1 - 1)%Z
    with ((nth k (row index_set i) 0 - 1) + 1)%Z by lia.
  rewrite inject_Z_plus. change (inject_Z 1) with 1%Q.
  fold o. fold b.
  set (g := inject_Z (nth k (row index_set i) 0 - 1)%Z).
  set (f := nth k (row fr 0) 0%Q).
  assert (Hn' : (0 < inject_Z (nth k ni 0%Z))%Q)
    by (change 0%Q with (inject_Z 0); now rewrite <- Zlt_Qlt).
  assert (Hb : (0 < b)%Q).
  { unfold b. apply Qlt_shift_div_l; [exact Hn'|]. now rewrite Qmult_0_l. }
  assert (Ho : ~ (1 - o == 0)%Q) by (unfold o; lra).
  assert (Hnz : ~ (inject_Z (nth k ni 0%Z) == 0)%Q) by lra.
  set (t := (b * o / (1 - o))%Q).
  rewrite Q.min_l by lra. rewrite Q.max_r by lra.
  unfold t, b. repeat split; field; split; assumption.
Qed.

Lemma fixed_grid_adjacent_overlap_witness :
  exists ls_i ls_j,
    nth_error scenario_sets_Q 0 = Some ls_i /\
    nth_error scenario_sets_Q 1 = Some ls_j /\
    (overlap_along ls_i ls_j 0 == 1 # 2)%Q.
Proof.
  destruct scenario_sets_Q as [|ls_i [|ls_j rest]] eqn:E;
    [discriminate E | discriminate E |].
  exists ls_i, ls_j. split; [reflexivity|]. split; [reflexivity|].
  assert (Hi : nth_error scenario_sets_Q 0 = Some ls_i) by now rewrite E.
  assert (Hj : nth_error scenario_sets_Q 1 = Some ls_j) by now rewrite E.
  destruct (fixed_grid_adjacent_overlap (mkMatrix 1 [])
              (mkMatrix 1 [[1%Z]; [2%Z]]) [1 # 5]%Q [5%Z]
              (mkMatrix 1 [[0]; [10]]%Q) [10]%Q 0 1 0 ls_i ls_j)
    as (Hw & _); try exact Hi; try exact Hj;
    try (vm_compute; lia); try (cbn; lra); try reflexivity.
  rewrite Hw. vm_compute. reflexivity.
Defined.

(** Claim C2 as stated fails.  In the scenario of the specification
    (overlap 1/5, baseLength 2) the two adjacent bins intersect in an
    interval of width 1/2, while overlap * baseLength is 2/5; binary64
    computes 0.5 and 0.4. *)
Lemma fixed_grid_overlap_counterexample :
  match scenario_sets_Q with
  | [a; b] =>
      ~ (overlap_along a b 0 ==
         (1 # 5) * base_length (D := exactQ) [10]%Q [5%Z] 0)%Q
  | _ => False
  end /\
  match scenario_bounds (mkMatrix 1 [[1%Z]; [2%Z]]) with
  | [a; b] =>
      PrimFloat.sub (mget a 1 0) (mget b 0 0) = 0.5%float /\
      PrimFloat.mul 0.2 (base_length [10%float] [5%Z] 0) = 0.4%float
  | _ => False
  end.
Proof.
  split.
  - vm_compute. discriminate.
  - vm_compute. split; reflexivity.
Qed.

(* ================================================================== *)
(** * Properties of the cover map *)

Section SortedLists.
Context {A : Type} (R : A -> A -> Prop).

Lemma StronglySorted_app : forall l1 l2,
  StronglySorted R l1 -> StronglySorted R l2 ->
  (forall a b, In a l1 -> In b l2 -> R a b) ->
  StronglySorted R (l1 ++ l2).
Proof.
  induction l1 as [|a l1 IH]; intros l2 H1 H2 H12; simpl; [assumption|].
  apply StronglySorted_inv in H1 as [H1 Ha]. constructor.
  - apply IH; auto. intros; apply H12; simpl; auto.
  - apply Forall_app. split; [assumption|].
    apply Forall_forall. intros b Hb. apply H12; simpl; auto.
Qed.

Lemma StronglySorted_filter : forall f l,
  StronglySorted R l -> StronglySorted R (filter f l).
Proof.
  intros f l; induction l as [|a l IH]; intros H; simpl; [constructor|].
  apply StronglySorted_inv in H as [H Ha].
  destruct (f a); [|now apply IH]. constructor; [now apply IH|].
  rewrite Forall_forall in *. intros b Hb.
  apply Ha. now apply filter_In in Hb.
Qed.

Lemma StronglySorted_NoDup : forall l,
  (forall a, ~ R a a) -> StronglySorted R l -> NoDup l.
Proof.
  intros l Hirr; induction l as [|a l IH]; intros H; constructor;
    apply StronglySorted_inv in H as [H Ha].
  - intros Hin. rewrite Forall_forall in Ha. exact (Hirr a (Ha a Hin)).
  - now apply IH.
Qed.

End SortedLists.

Lemma StronglySorted_map : forall {A B} (R : A -> A -> Prop)
    (R' : B -> B -> Prop) (f : A -> B) l,
  (forall a b, R a b -> R' (f a) (f b)) ->
  StronglySorted R l -> StronglySorted R' (map f l).
Proof.
  intros A B R R' f l Hf; induction l as [|a l IH]; intros H; simpl;
    [constructor|].
  apply StronglySorted_inv in H as [H Ha]. constructor; [now apply IH|].
  apply Forall_map. revert Ha. apply Forall_impl. intros b. apply Hf.
Qed.

Lemma StronglySorted_seq : forall n a, StronglySorted lt (seq a n).
Proof.
  induction n as [|n IH]; intros a; simpl; constructor; [apply IH|].
  apply Forall_forall. intros b Hb. apply in_seq in Hb. lia.
Qed.

Lemma list_prod_seq_sorted : forall n1 n2 a,
  StronglySorted pair_lt (list_prod (seq a n1) (seq 0 n2)).
Proof.
  induction n1 as [|n1 IH]; intros n2 a; simpl; [constructor|].
  apply StronglySorted_app.
  - apply StronglySorted_map with (R := lt); [|apply StronglySorted_seq].
    intros x y Hxy. right. simpl. auto.
  - apply IH.
  - intros p q Hp Hq. apply in_map_iff in Hp as (y & <- & _).
    destruct q as [i j]. apply in_prod_iff in Hq as [Hi _].
    apply in_seq in Hi. left. simpl. lia.
Qed.

(** Reading two vectors filled in step as one list of pairs. *)
Lemma map_nth_pairs : forall {A B C} (h : B -> B -> C) (f g : A -> B)
    (P : list A) (d1 d2 : B),
  map (fun i => h (nth i (map f P) d1) (nth i (map g P) d2))
      (seq 0 (length (map f P))) =
  map (fun p => h (f p) (g p)) P.
Proof.
  intros A B C h f g P d1 d2. rewrite length_map.
  induction P as [|p P IH]; simpl; [reflexivity|].
  rewrite <- seq_shift, map_map. simpl. now rewrite IH.
Qed.

Lemma filter_map_pair : forall {A B} (f : A * B -> bool) (a : A) (l : list B),
  filter f (map (pair a) l) = map (pair a) (filter (fun b => f (a, b)) l).
Proof.
  intros A B f a l; induction l as [|b l IH]; simpl; [reflexivity|].
  destruct (f (a, b)); simpl; now rewrite IH.
Qed.

Section CoverMapProperties.
Context {double : Type} {D : DoubleOps double}.

Lemma all_intersect_from : forall (t : nat -> bool) ks (a : bool),
  fold_left (fun (all : bool) d_i => if all then all && t d_i else all) ks a =
  a && forallb t ks.
Proof.
  intros t ks; induction ks as [|k ks IH]; intros a; simpl.
  - now rewrite andb_true_r.
  - rewrite IH. destruct a; simpl; [reflexivity|].
    reflexivity.
Qed.

Lemma all_intersect_spec : forall (b1 b2 : NumericMatrix double) d,
  all_intersect b1 b2 d = boxes_intersect b1 b2 d.
Proof.
  intros. unfold all_intersect, boxes_intersect.
  now rewrite all_intersect_from.
Qed.

Lemma cover_map_inner : forall (ls1 ls2 : list (NumericMatrix double)) d i js
    from_lsfi to_lsfi,
  fold_left
    (fun (st : list Z * list Z) j =>
       let (from_lsfi, to_lsfi) := st in
       if all_intersect (nth i ls1 empty_bounds) (nth j ls2 empty_bounds) d
       then (from_lsfi ++ [Z.of_nat i], to_lsfi ++ [Z.of_nat j])
       else (from_lsfi, to_lsfi))
    js (from_lsfi, to_lsfi) =
  let P := filter
             (fun p => boxes_intersect (nth (fst p) ls1 empty_bounds)
                                       (nth (snd p) ls2 empty_bounds) d)
             (map (pair i) js) in
  (from_lsfi ++ map (fun p => Z.of_nat (fst p)) P,
   to_lsfi ++ map (fun p => Z.of_nat (snd p)) P).
Proof.
  intros ls1 ls2 d i js; induction js as [|j js IH]; intros from_lsfi to_lsfi.
  - simpl. now rewrite !app_nil_r.
  - simpl. rewrite all_intersect_spec.
    destruct (boxes_intersect _ _ d); rewrite IH; cbv zeta; simpl;
      now rewrite <- ?app_assoc.
Qed.

Lemma cover_map_outer : forall (ls1 ls2 : list (NumericMatrix double)) d idx
    from_lsfi to_lsfi,
  fold_left
    (fun (st : list Z * list Z) i =>
       fold_left
         (fun (st : list Z * list Z) j =>
            let (from_lsfi, to_lsfi) := st in
            if all_intersect (nth i ls1 empty_bounds)
                             (nth j ls2 empty_bounds) d
            then (from_lsfi ++ [Z.of_nat i], to_lsfi ++ [Z.of_nat j])
            else (from_lsfi, to_lsfi))
         (seq 0 (length ls2)) st)
    idx (from_lsfi, to_lsfi) =
  let P := filter
             (fun p => boxes_intersect (nth (fst p) ls1 empty_bounds)
                                       (nth (snd p) ls2 empty_bounds) d)
             (list_prod idx (seq 0 (length ls2))) in
  (from_lsfi ++ map (fun p => Z.of_nat (fst p)) P,
   to_lsfi ++ map (fun p => Z.of_nat (snd p)) P).
Proof.
  intros ls1 ls2 d idx; induction idx as [|i idx IH];
    intros from_lsfi to_lsfi.
  - simpl. now rewrite !app_nil_r.
  - simpl. rewrite cover_map_inner. cbv zeta. rewrite IH. cbv zeta.
    now rewrite filter_app, !map_app, !app_assoc.
Qed.

(** [createCoverMap] lists the intersecting pairs of positions. *)
Lemma createCoverMap_spec : forall (ls1 ls2 : list (NumericMatrix double)) d,
  createCoverMap ls1 ls2 d =
  mkMatrix 2
    (map (fun p => [of_int (Z.of_nat (fst p)); of_int (Z.of_nat (snd p))])
         (intersecting_pairs ls1 ls2 d)).
Proof.
  intros. unfold createCoverMap, cover_map_loops.
  rewrite cover_map_outer. cbv zeta. cbn [app]. f_equal.
  apply (map_nth_pairs (fun a b => [of_int a; of_int b])).
Qed.

End CoverMapProperties.

(** Claim C5, as the code has it.  [createCoverMap] returns one row per
    pair of boxes, one from each cover, that meet in every dimension
    ([min1 <= max2] and [max1 >= min2]); the rows come cover 1 major,
    cover 2 minor, no pair comes twice, and the ids in a row are the
    positions of the boxes in their covers counted from 0. *)
Theorem cover_map_zero_based_pairs :
  forall {double} {D : DoubleOps double} (ls1 ls2 : list (NumericMatrix double))
         (d : Z),
  createCoverMap ls1 ls2 d =
    mkMatrix 2
      (map (fun p => [of_int (Z.of_nat (fst p)); of_int (Z.of_nat (snd p))])
           (intersecting_pairs ls1 ls2 d)) /\
  (forall i j,
     In (i, j) (intersecting_pairs ls1 ls2 d) <->
     i < length ls1 /\ j < length ls2 /\
     forall k, k < Z.to_nat d ->
       dleb (mget (nth i ls1 empty_bounds) 0 k)
            (mget (nth j ls2 empty_bounds) 1 k) = true /\
       dleb (mget (nth j ls2 empty_bounds) 0 k)
            (mget (nth i ls1 empty_bounds) 1 k) = true) /\
  StronglySorted pair_lt (intersecting_pairs ls1 ls2 d) /\
  NoDup (intersecting_pairs ls1 ls2 d).
Proof.
  intros double D ls1 ls2 d.
  assert (Hsorted : StronglySorted pair_lt (intersecting_pairs ls1 ls2 d))
    by (apply StronglySorted_filter, list_prod_seq_sorted).
  split; [apply createCoverMap_spec|]. split; [|split; [exact Hsorted|]].
  - intros i j. unfold intersecting_pairs.
    rewrite filter_In, in_prod_iff, !in_seq. cbn [fst snd].
    unfold boxes_intersect. rewrite forallb_forall. split.
    + intros ((Hi & Hj) & Hall). split; [lia|]. split; [lia|].
      intros k Hk. apply andb_true_iff. apply Hall. apply in_seq. lia.
    + intros (Hi & Hj & Hall). split; [lia|].
      intros k Hk. apply in_seq in Hk.
      apply andb_true_iff. apply Hall. lia.
  - apply (StronglySorted_NoDup pair_lt); [|exact Hsorted].
    intros [i j] [H | [_ H]]; simpl in H; lia.
Qed.

(** Claim C5 as stated fails on the base of the ids: for two covers made
    of the same single box the row returned is (0, 0), not (1, 1). *)
Lemma cover_map_one_based_counterexample :
  createCoverMap [unit_interval] [unit_interval] 1 = mkMatrix 2 [[0; 0]]%float /\
  createCoverMap [unit_interval] [unit_interval] 1 <> mkMatrix 2 [[1; 1]]%float.
Proof.
  split; [vm_compute; reflexivity|].
  intros H.
  apply (f_equal (fun m => PrimFloat.eqb (mget m 0 0) 0%float)) in H.
  vm_compute in H. discriminate.
Qed.

(** Claim C6 on the code.  For one point at position 2 of 4 intervals of
    length 1, with distances 0.2 and 0.3 to the lower and upper boundary
    of its bin, [dist_to_boxes] returns the targets 1, 3, 4 and the
    distances 2.2, 0.3, 1.3: the offset added for the bin just below the
    point is two interval lengths, not zero. *)
Theorem dist_to_boxes_scenario :
  dist_to_boxes [2%Z] 1%float 4 [0.2%float] [0.3%float] =
  Ok (mkBoxDistances [[1; 3; 4]%Z] [[2.2; 0.3; 1.3]%float]) /\
  target_distance 1%float 2 0.2%float 0.3%float 1 =
    PrimFloat.add 0.2 (PrimFloat.mul 2 1) /\
  target_distance 1%float 2 0.2%float 0.3%float 3 =
    PrimFloat.add 0.3 (PrimFloat.mul 0 1).
Proof. repeat split; vm_compute; reflexivity. Qed.

(* ================================================================== *)
(** * Properties of the candidate table *)

Lemma map_nth_seq_id : forall {A} (l : list A) d,
  map (fun j => nth j l d) (seq 0 (length l)) = l.
Proof.
  induction l as [|a l IH]; intros d; simpl; [reflexivity|].
  rewrite <- seq_shift, map_map. simpl. now rewrite IH.
Qed.

Lemma map_nth_seq_tl : forall {A} (l : list A) d,
  map (fun j => nth j l d) (seq 1 (length l - 1)) = tl l.
Proof.
  intros A [|a l] d; simpl; [reflexivity|].
  rewrite Nat.sub_0_r, <- seq_shift, map_map. simpl.
  apply map_nth_seq_id.
Qed.

Lemma valid_pairs_inner : forall pairs js from_index to_index,
  fold_left
    (fun (st : list Z * list Z) j =>
       let (from_index, to_index) := st in
       if negb (is_na (nth j pairs 0%Z))
       then (from_index ++ [nth 0 pairs 0%Z], to_index ++ [nth j pairs 0%Z])
       else (from_index, to_index))
    js (from_index, to_index) =
  let C := filter (fun c => negb (is_na c))
                  (map (fun j => nth j pairs 0%Z) js) in
  (from_index ++ map (fun _ => nth 0 pairs 0%Z) C, to_index ++ C).
Proof.
  intros pairs js; induction js as [|j js IH]; intros from_index to_index.
  - simpl. now rewrite !app_nil_r.
  - simpl. destruct (negb (is_na (nth j pairs 0%Z))); rewrite IH; cbv zeta;
      simpl; now rewrite <- ?app_assoc.
Qed.

Lemma valid_pairs_outer : forall (table : Matrix Z) idx from_index to_index,
  fold_left
    (fun (st : list Z * list Z) i =>
       fold_left
         (fun (st : list Z * list Z) j =>
            let (from_index, to_index) := st in
            if negb (is_na (nth j (row table i) 0%Z))
            then (from_index ++ [nth 0 (row table i) 0%Z],
                  to_index ++ [nth j (row table i) 0%Z])
            else (from_index, to_index))
         (seq 1 (ncol table - 1)) st)
    idx (from_index, to_index) =
  let P := flat_map
             (fun i =>
                map (fun c => (nth 0 (row table i) 0%Z, c))
                    (filter (fun c => negb (is_na c))
                       (map (fun j => nth j (row table i) 0%Z)
                            (seq 1 (ncol table - 1)))))
             idx in
  (from_index ++ map fst P, to_index ++ map snd P).
Proof.
  intros table idx; induction idx as [|i idx IH]; intros from_index to_index.
  - simpl. now rewrite !app_nil_r.
  - simpl. rewrite valid_pairs_inner. cbv zeta. rewrite IH. cbv zeta.
    rewrite !map_app, !map_map, !app_assoc. cbn [fst snd].
    now rewrite map_id.
Qed.

(** On a table whose rows all have [ncol] entries the loops visit, row by
    row, the present candidates of the row. *)
Lemma valid_pairs_loops_spec : forall table,
  well_shaped table ->
  valid_pairs_loops table =
  (map fst (compact_pairs table), map snd (compact_pairs table)).
Proof.
  intros table Hshape. unfold valid_pairs_loops.
  rewrite valid_pairs_outer. cbv zeta. cbn [app].
  assert (H : flat_map
            (fun i =>
               map (fun c => (nth 0 (row table i) 0%Z, c))
                   (filter (fun c => negb (is_na c))
                      (map (fun j => nth j (row table i) 0%Z)
                           (seq 1 (ncol table - 1)))))
            (seq 0 (nrow table)) = compact_pairs table).
  { unfold compact_pairs, candidates.
    rewrite <- (map_nth_seq_id (mrows table) []) at 1.
    rewrite !flat_map_concat_map, map_map. f_equal.
    apply map_ext_in. intros i Hi. apply in_seq in Hi.
    fold (row table i).
    assert (Hlen : length (row table i) = ncol table).
    { unfold well_shaped in Hshape. rewrite Forall_forall in Hshape.
      apply Hshape. apply nth_In. unfold nrow in Hi. lia. }
    now rewrite <- Hlen, map_nth_seq_tl. }
  now rewrite H.
Qed.

Lemma compact_pairs_length : forall table,
  length (compact_pairs table) = countNonSentinel table.
Proof.
  intros table. unfold compact_pairs, countNonSentinel, candidates.
  induction (mrows table) as [|pairs rows IH]; simpl; [reflexivity|].
  now rewrite filter_app, !length_app, length_map, IH.
Qed.

Lemma compact_pairs_In : forall table e,
  In e (compact_pairs table) ->
  exists pairs, In pairs (mrows table) /\
                fst e = nth 0 pairs 0%Z /\
                In (snd e) (tl pairs) /\ snd e <> NA_INTEGER.
Proof.
  intros table e He. unfold compact_pairs in He.
  apply in_flat_map in He as (pairs & Hrow & He).
  apply in_map_iff in He as (c & <- & Hc).
  unfold candidates in Hc. apply filter_In in Hc as [Hc Hna].
  exists pairs. repeat split; auto. cbn [snd].
  unfold is_na in Hna. apply negb_true_iff, Z.eqb_neq in Hna. exact Hna.
Qed.

(** Claim C7.  On a candidate-neighbour table (rows of [ncol >= 1]
    entries) [valid_pairs] returns the pairs (own id, candidate) of the
    candidates that are not the sentinel, row by row and column by column.
    Their number is [countNonSentinel]; no destination is the sentinel,
    and no source is when no own id is. *)
Theorem valid_pairs_compacts_candidates :
  forall table : Matrix Z,
  well_shaped table -> 1 <= ncol table ->
  exists edges,
    valid_pairs table = Ok edges /\
    edges = compact_pairs table /\
    length edges = countNonSentinel table /\
    Forall (fun e => snd e <> NA_INTEGER) edges /\
    (Forall (fun pairs => nth 0 pairs 0%Z <> NA_INTEGER) (mrows table) ->
     Forall (fun e => fst e <> NA_INTEGER /\ snd e <> NA_INTEGER) edges).
Proof.
  intros table Hshape Hcol. exists (compact_pairs table).
  split; [|split; [reflexivity|split; [apply compact_pairs_length|]]].
  - unfold valid_pairs.
    replace (Z.of_nat (nrow table) * (Z.of_nat (ncol table) - 1) <? 0)%Z
      with false by (symmetry; apply Z.ltb_ge; nia).
    rewrite valid_pairs_loops_spec by assumption. f_equal.
    rewrite (map_nth_pairs pair fst snd). 
    rewrite <- (map_id (compact_pairs table)) at 2.
    apply map_ext. now intros [a b].
  - split.
    + apply Forall_forall. intros e He.
      now apply compact_pairs_In in He as (pairs & _ & _ & _ & Hna).
    + intros Hown. apply Forall_forall. intros e He.
      apply compact_pairs_In in He as (pairs & Hrow & Hsrc & _ & Hna).
      split; [|exact Hna]. rewrite Hsrc.
      rewrite Forall_forall in Hown. now apply Hown.
Qed.

Lemma valid_pairs_compacts_candidates_witness :
  well_shaped sample_table /\ 1 <= ncol sample_table /\
  valid_pairs sample_table = Ok [(1, 2); (2, 3)]%Z.
Proof.
  assert (Hshape : well_shaped sample_table)
    by (repeat constructor).
  assert (Hcol : 1 <= ncol sample_table) by (cbn; lia).
  split; [exact Hshape|]. split; [exact Hcol|].
  destruct (valid_pairs_compacts_candidates sample_table Hshape Hcol)
    as (edges & Hres & Hedges & _).
  rewrite Hres, Hedges. reflexivity.
Defined.

(* ================================================================== *)
(** * Properties of the adjacency list *)

Lemma add_edge_insert : forall m from to,
  add_edge m (from, to) = insert_edge m from to.
Proof.
  induction m as [|[k v] m IH]; intros from to.
  - reflexivity.
  - specialize (IH from to). unfold add_edge in *. simpl.
    destruct (k <? from)%Z eqn:Hlt; simpl.
    + rewrite <- IH.
      destruct (nth_error m (lower_bound m from)) as [[k' v']|];
        [destruct (k' =? from)%Z|]; reflexivity.
    + destruct (k =? from)%Z; reflexivity.
Qed.

Lemma insert_edge_keys : forall m from to k,
  In k (map fst (insert_edge m from to)) <-> k = from \/ In k (map fst m).
Proof.
  induction m as [|[k0 v0] m IH]; intros from to k; simpl.
  - intuition.
  - destruct (k0 <? from)%Z eqn:Hlt; simpl.
    + rewrite IH. intuition.
    + destruct (k0 =? from)%Z eqn:Heq; simpl.
      * apply Z.eqb_eq in Heq. subst. intuition.
      * intuition.
Qed.

Lemma insert_edge_sorted : forall m from to,
  StronglySorted Z.lt (map fst m) ->
  StronglySorted Z.lt (map fst (insert_edge m from to)).
Proof.
  induction m as [|[k0 v0] m IH]; intros from to Hs; simpl.
  - repeat constructor.
  - simpl in Hs. apply StronglySorted_inv in Hs as [Hs Hk0].
    destruct (k0 <? from)%Z eqn:Hlt; simpl.
    + constructor; [now apply IH|].
      apply Forall_forall. intros k Hk. apply insert_edge_keys in Hk as [->|Hk].
      * now apply Z.ltb_lt.
      * rewrite Forall_forall in Hk0. now apply Hk0.
    + destruct (k0 =? from)%Z eqn:Heq; simpl.
      * now constructor.
      * apply Z.ltb_ge in Hlt. apply Z.eqb_neq in Heq.
        constructor; [now constructor|].
        constructor; [lia|].
        revert Hk0. apply Forall_impl. intros; lia.
Qed.

Lemma insert_edge_In : forall m from to k v,
  StronglySorted Z.lt (map fst m) ->
  In (k, v) (insert_edge m from to) ->
  (k <> from /\ In (k, v) m) \/
  (k = from /\ exists v0, In (from, v0) m /\ v = v0 ++ [to]) \/
  (k = from /\ ~ In from (map fst m) /\ v = [to]).
Proof.
  induction m as [|[k0 v0] m IH]; intros from to k v Hs Hin; simpl in *.
  - destruct Hin as [[= <- <-]|[]]. right; right. auto.
  - apply StronglySorted_inv in Hs as [Hs Hk0].
    rewrite Forall_forall in Hk0.
    destruct (k0 <? from)%Z eqn:Hlt; simpl in Hin.
    + apply Z.ltb_lt in Hlt. destruct Hin as [[= <- <-]|Hin].
      * left. split; [lia|now left].
      * apply IH in Hin as [[Hne Hin]|[[-> (v1 & Hin & ->)]|[-> [Hnot ->]]]];
          auto.
        -- right; left. split; [reflexivity|]. exists v1. auto.
        -- right; right. repeat split; auto. intros [->|Hf]; [lia|auto].
    + apply Z.ltb_ge in Hlt.
      destruct (k0 =? from)%Z eqn:Heq; simpl in Hin.
      * apply Z.eqb_eq in Heq. subst k0. destruct Hin as [[= <- <-]|Hin].
        -- right; left. split; [reflexivity|]. exists v0. auto.
        -- left. split; [|now right].
           assert (from < k)%Z
             by (apply Hk0; change k with (fst (k, v)); now apply in_map).
           lia.
      * apply Z.eqb_neq in Heq. destruct Hin as [[= <- <-]|[[= <- <-]|Hin]].
        -- right; right. repeat split; auto.
           intros [->|Hf]; [lia|]. apply Hk0 in Hf. lia.
        -- left. split; [lia|now left].
        -- left. split; [|now right].
           assert (k0 < k)%Z
             by (apply Hk0; change k with (fst (k, v)); now apply in_map).
           lia.
Qed.

Lemma destinations_app : forall el from to k,
  destinations (el ++ [(from, to)]) k =
  destinations el k ++ (if (from =? k)%Z then [to] else []).
Proof.
  intros. unfold destinations. rewrite filter_app, map_app. simpl.
  destruct (from =? k)%Z; reflexivity.
Qed.

Lemma destinations_nil : forall el k,
  ~ In k (map fst el) -> destinations el k = [].
Proof.
  intros el k; induction el as [|[f t] el IH]; intros Hk; [reflexivity|].
  unfold destinations in *. simpl in *.
  destruct (f =? k)%Z eqn:E.
  - apply Z.eqb_eq in E. tauto.
  - apply IH. tauto.
Qed.

Lemma destinations_not_nil : forall el k,
  In k (map fst el) -> destinations el k <> [].
Proof.
  intros el k; induction el as [|[f t] el IH]; intros Hk; [contradiction|].
  unfold destinations in *. simpl in *.
  destruct (f =? k)%Z eqn:E; [discriminate|].
  apply Z.eqb_neq in E. apply IH. tauto.
Qed.

Lemma adjacency_step : forall el m from to,
  adjacency_of el m ->
  adjacency_of (el ++ [(from, to)]) (add_edge m (from, to)).
Proof.
  intros el m from to (Hs & Hkeys & Hvals). rewrite add_edge_insert.
  split; [now apply insert_edge_sorted|]. split.
  - intros k. rewrite insert_edge_keys, map_app, in_app_iff, Hkeys.
    simpl. intuition.
  - intros k v Hin. rewrite destinations_app.
    apply insert_edge_In in Hin
      as [[Hne Hin]|[[-> (v0 & Hin & ->)]|[-> [Hnot ->]]]]; auto.
    + apply Z.eqb_neq in Hne. rewrite Z.eqb_sym, Hne, app_nil_r. auto.
    + rewrite Z.eqb_refl. f_equal. auto.
    + rewrite Z.eqb_refl, destinations_nil; [reflexivity|].
      now rewrite <- Hkeys.
Qed.

Lemma edgelist_to_adjacencylist_adjacency : forall el,
  adjacency_of el (edgelist_to_adjacencylist el).
Proof.
  unfold edgelist_to_adjacencylist.
  induction el as [|[from to] el IH] using rev_ind.
  - repeat split; simpl; try constructor; tauto.
  - rewrite fold_left_app. simpl. now apply adjacency_step.
Qed.

(** Claim C8.  [edgelist_to_adjacencylist] returns the entries in strictly
    ascending order of key; the keys are exactly the sources of the edge
    list; each key holds the destinations of its edges in edge-list
    order, which is never the empty list.  The edge list
    (1,2), (1,3), (2,3) yields 1: [2,3], 2: [3]. *)
Theorem adjacency_list_of_edge_list :
  (forall el : list (Z * Z),
     let m := edgelist_to_adjacencylist el in
     StronglySorted Z.lt (map fst m) /\
     (forall k, In k (map fst m) <-> In k (map fst el)) /\
     (forall k v, In (k, v) m -> v = destinations el k /\ v <> [])) /\
  edgelist_to_adjacencylist [(1, 2); (1, 3); (2, 3)]%Z =
    [(1, [2; 3]); (2, [3])]%Z.
Proof.
  split; [|reflexivity].
  intros el m. destruct (edgelist_to_adjacencylist_adjacency el)
    as (Hs & Hkeys & Hvals). fold m in Hs, Hkeys, Hvals.
  split; [exact Hs|]. split; [exact Hkeys|].
  intros k v Hin. pose proof (Hvals k v Hin) as ->.
  split; [reflexivity|]. apply destinations_not_nil, Hkeys.
  change k with (fst (k, destinations el k)). now apply in_map.
Qed.

(* ================================================================== *)
(** * Properties of [which_cpp] and [findFirstEqual] *)

Lemma which_cpp_from_acc : forall x value i y,
  which_cpp_from i x value y = y ++ which_cpp_from i x value [].
Proof.
  induction x as [|a x IH]; intros value i y; simpl.
  - now rewrite app_nil_r.
  - destruct (a =? value)%Z; [|apply IH].
    rewrite (IH value (S i) (y ++ _)), (IH value (S i) [_]).
    now rewrite <- app_assoc.
Qed.

Lemma which_cpp_from_cons : forall a x value i,
  which_cpp_from i (a :: x) value [] =
  (if (a =? value)%Z then [Z.of_nat i] else []) ++
  which_cpp_from (S i) x value [].
Proof.
  intros a x value i; simpl. destruct (a =? value)%Z; [|reflexivity].
  now rewrite which_cpp_from_acc.
Qed.

Lemma In_which_cpp_from : forall x value i v,
  In v (which_cpp_from i x value []) <->
  exists r, nth_error x r = Some value /\ v = Z.of_nat (i + r).
Proof.
  induction x as [|a x IH]; intros value i v.
  - simpl. split; [tauto|]. intros ([|r] & Hr & _); discriminate.
  - rewrite which_cpp_from_cons, in_app_iff, IH. split.
    + intros [Hv | (r & Hr & ->)].
      * destruct (a =? value)%Z eqn:E; [|contradiction].
        destruct Hv as [<- | []]. apply Z.eqb_eq in E. subst a.
        exists 0. split; [reflexivity | f_equal; lia].
      * exists (S r). split; [exact Hr | f_equal; lia].
    + intros ([|r] & Hr & ->); simpl in Hr.
      * injection Hr as ->. rewrite Z.eqb_refl. left; left. f_equal; lia.
      * right. exists r. split; [exact Hr | f_equal; lia].
Qed.

Lemma which_cpp_from_sorted : forall x value i,
  StronglySorted Z.lt (which_cpp_from i x value []).
Proof.
  induction x as [|a x IH]; intros value i.
  - constructor.
  - rewrite which_cpp_from_cons.
    destruct (a =? value)%Z; simpl; [|apply IH].
    constructor; [apply IH|].
    apply Forall_forall; intros v Hv.
    apply In_which_cpp_from in Hv as (r & _ & ->). lia.
Qed.

Lemma which_cpp_from_head : forall x value i,
  hd (Z.of_nat (i + length x)) (which_cpp_from i x value []) =
  Z.of_nat (i + find_distance x value).
Proof.
  induction x as [|a x IH]; intros value i.
  - reflexivity.
  - rewrite which_cpp_from_cons. simpl find_distance.
    destruct (a =? value)%Z; simpl.
    + f_equal; lia.
    + replace (i + S (length x)) with (S i + length x) by lia.
      rewrite IH. f_equal; lia.
Qed.

Lemma find_distance_le : forall x value, find_distance x value <= length x.
Proof.
  induction x as [|a x IH]; intros value; simpl; [lia|].
  destruct (a =? value)%Z; [lia|]. specialize (IH value). lia.
Qed.

Lemma find_distance_found : forall x value,
  find_distance x value < length x ->
  nth_error x (find_distance x value) = Some value.
Proof.
  induction x as [|a x IH]; intros value H; simpl in *; [lia|].
  destruct (a =? value)%Z eqn:E.
  - apply Z.eqb_eq in E. now subst.
  - apply IH. lia.
Qed.

Lemma find_distance_before : forall x value j,
  j < find_distance x value -> nth_error x j <> Some value.
Proof.
  induction x as [|a x IH]; intros value j H; simpl in *; [lia|].
  destruct (a =? value)%Z eqn:E; [lia|].
  destruct j as [|j]; simpl.
  - intros [= ->]. now rewrite Z.eqb_refl in E.
  - apply IH. lia.
Qed.

(** Extra X1.  [findFirstEqual] returns the 1-based position of the first
    entry equal to [value], and the length of the vector plus one when no
    entry is: the result is at most the length exactly when [value]
    occurs, the entry at the result is [value], and no earlier entry is. *)
Theorem findFirstEqual_first_occurrence : forall x value,
  (1 <= findFirstEqual x value <= Z.of_nat (length x) + 1)%Z /\
  (In value x <-> (findFirstEqual x value <= Z.of_nat (length x))%Z) /\
  ((findFirstEqual x value <= Z.of_nat (length x))%Z ->
   nth_error x (Z.to_nat (findFirstEqual x value - 1)) = Some value) /\
  (forall j, (Z.of_nat j + 1 < findFirstEqual x value)%Z ->
     nth_error x j <> Some value).
Proof.
  intros x value. unfold findFirstEqual.
  pose proof (find_distance_le x value) as Hle.
  split; [lia|]. split; [|split].
  - split.
    + intros Hin. apply In_nth_error in Hin as (j & Hj).
      destruct (Nat.lt_ge_cases (find_distance x value) (length x)); [lia|].
      exfalso. apply (find_distance_before x value j); [|exact Hj].
      assert (j < length x) by (apply nth_error_Some; congruence). lia.
    + intros H. apply (nth_error_In x (find_distance x value)).
      apply find_distance_found. lia.
  - intros H. replace (Z.to_nat _) with (find_distance x value) by lia.
    apply find_distance_found. lia.
  - intros j Hj. apply find_distance_before. lia.
Qed.

(** Extra X2.  [which_cpp] returns, in strictly increasing order, the
    0-based positions of the entries equal to [value]; it is empty exactly
    when [value] does not occur, and [findFirstEqual] is its first entry
    plus one (the length plus one when it is empty). *)
Theorem which_cpp_positions : forall x value,
  StronglySorted Z.lt (which_cpp x value) /\
  (forall v, In v (which_cpp x value) <->
             exists r, nth_error x r = Some value /\ v = Z.of_nat r) /\
  (which_cpp x value = [] <-> ~ In value x) /\
  findFirstEqual x value =
    (hd (Z.of_nat (length x)) (which_cpp x value) + 1)%Z.
Proof.
  intros x value. unfold which_cpp.
  split; [apply which_cpp_from_sorted|].
  split; [intros v; apply In_which_cpp_from|]. split.
  - split.
    + intros Hnil Hin. apply In_nth_error in Hin as (r & Hr).
      assert (H : In (Z.of_nat (0 + r)) (which_cpp_from 0 x value []))
        by (apply In_which_cpp_from; eauto).
      now rewrite Hnil in H.
    + intros Hnot. destruct (which_cpp_from 0 x value []) as [|v l] eqn:E;
        [reflexivity|]. exfalso. apply Hnot.
      assert (H : In v (which_cpp_from 0 x value []))
        by (rewrite E; now left).
      apply In_which_cpp_from in H as (r & Hr & _).
      now apply nth_error_In in Hr.
  - unfold findFirstEqual.
    pose proof (which_cpp_from_head x value 0) as H. simpl in H.
    now rewrite H.
Qed.

(* ================================================================== *)
(** * Further properties of the membership functions *)

Section MembershipEdges.
Context {double : Type} {D : DoubleOps double}.

Lemma dimension_mismatch_index : forall (x bnds : NumericMatrix double),
  ncol x <> ncol bnds / 2 -> constructLevelSetIndex x bnds = Stop dim_error.
Proof.
  intros x bnds H. unfold constructLevelSetIndex.
  apply Nat.eqb_neq in H. now rewrite H.
Qed.

Lemma dimension_mismatch_iso : forall (x bnds : NumericMatrix double) sb,
  ncol x <> ncol bnds / 2 ->
  constructIsoAlignedLevelSets x bnds sb = Stop dim_error.
Proof.
  intros x bnds sb H. unfold constructIsoAlignedLevelSets.
  apply Nat.eqb_neq in H. now rewrite H.
Qed.

Lemma index_of_point_range : forall (bnds : NumericMatrix double) p,
  index_of_point bnds p = (-1)%Z \/
  (1 <= index_of_point bnds p <= Z.of_nat (nrow bnds))%Z.
Proof.
  intros bnds p. unfold index_of_point, last_matching.
  destruct (find _ (rev (seq 0 (nrow bnds)))) as [i|] eqn:E; [|now left].
  apply find_rev_seq_some in E as (Hi & _). right. lia.
Qed.

Lemma index_of_point_unique : forall (bnds : NumericMatrix double) p,
  (forall i j, i < nrow bnds -> j < nrow bnds ->
     contains_epsb (row bnds i) (ncol bnds / 2) p = true ->
     contains_epsb (row bnds j) (ncol bnds / 2) p = true -> i = j) ->
  forall i, i < nrow bnds ->
  (index_of_point bnds p = (Z.of_nat i + 1)%Z <->
   contains_epsb (row bnds i) (ncol bnds / 2) p = true).
Proof.
  intros bnds p Hone i Hi. unfold index_of_point, last_matching.
  destruct (find _ (rev (seq 0 (nrow bnds)))) as [i0|] eqn:E.
  - apply find_rev_seq_some in E as (Hi0 & Hin & _). split.
    + intros Heq. assert (i0 = i) as <- by lia. exact Hin.
    + intros Hc. now rewrite (Hone i0 i Hi0 Hi Hin Hc).
  - pose proof (proj1 (find_rev_seq_none _ _) E i Hi) as Hnone.
    cbv beta in Hnone. rewrite Hnone. split; [lia | discriminate].
Qed.

(** A successful call met no missing test. *)
Lemma constructLevelSetIndex_Ok : forall (x bnds : NumericMatrix double) res,
  constructLevelSetIndex x bnds = Ok res ->
  ncol x = ncol bnds / 2 /\ cover_test_nan x bnds = false /\
  res = map (index_of_point bnds) (mrows x).
Proof.
  intros x bnds res H.
  destruct (Nat.eq_dec (ncol x) (ncol bnds / 2)) as [Heq|Hne];
    [|rewrite dimension_mismatch_index in H by exact Hne; discriminate].
  rewrite constructLevelSetIndex_spec in H by exact Heq.
  destruct (cover_test_nan x bnds); [discriminate|].
  injection H as <-. auto.
Qed.

End MembershipEdges.

(** Extra X3.  [constructLevelSetIndex] and [constructIsoAlignedLevelSets]
    stop with the dimension error exactly when the number of columns of
    the points differs from half the number of columns of the bounds,
    rounded down.  When the dimensions agree,
    [constructIsoAlignedLevelSets] returns one level set per row of the
    bounds, and [constructLevelSetIndex] returns one entry per point
    unless the test of some bin for some point is missing (a NaN or NA
    among the tested coordinates or widened bounds), in which case it
    stops with the error of the logical subsetting. *)
Theorem dimension_check :
  forall {double} {D : DoubleOps double} (x bnds : NumericMatrix double)
         save_bounds,
  (constructLevelSetIndex x bnds = Stop dim_error <->
   ncol x <> ncol bnds / 2) /\
  (constructIsoAlignedLevelSets x bnds save_bounds = Stop dim_error <->
   ncol x <> ncol bnds / 2) /\
  ((exists sets, constructIsoAlignedLevelSets x bnds save_bounds = Ok sets /\
                 length sets = nrow bnds) <->
   ncol x = ncol bnds / 2) /\
  ((exists res, constructLevelSetIndex x bnds = Ok res /\
                length res = nrow x) <->
   ncol x = ncol bnds / 2 /\ cover_test_nan x bnds = false) /\
  (constructLevelSetIndex x bnds = Stop subset_na_error <->
   ncol x = ncol bnds / 2 /\ cover_test_nan x bnds = true).
Proof.
  intros double D x bnds sb.
  destruct (Nat.eq_dec (ncol x) (ncol bnds / 2)) as [Heq|Hne].
  - rewrite constructLevelSetIndex_spec,
            (constructIsoAlignedLevelSets_spec x bnds sb) by exact Heq.
    split; [split; [destruct (cover_test_nan x bnds); discriminate | tauto]|].
    split; [split; [discriminate | tauto]|].
    split; [split; [tauto|intros _]|].
    { eexists. split; [reflexivity|]. now rewrite length_map, length_seq. }
    destruct (cover_test_nan x bnds); split; split.
    + intros (res & Hres & _). discriminate.
    + intros [_ Hf]. discriminate.
    + auto.
    + reflexivity.
    + intros _. split; [exact Heq | reflexivity].
    + intros _. eexists. split; [reflexivity | apply length_map].
    + discriminate.
    + intros [_ Hf]. discriminate.
  - rewrite dimension_mismatch_index, (dimension_mismatch_iso x bnds sb)
      by exact Hne.
    split; [tauto|]. split; [tauto|].
    split; [split; [intros (r & Hr & _); discriminate | tauto]|].
    split; [split; [intros (r & Hr & _); discriminate | tauto]|].
    split; [discriminate | tauto].
Qed.

(** Extra X4.  Every entry of a result of [constructLevelSetIndex] is the
    sentinel -1 or a bin id between 1 and the number of bins, never 0;
    there is one entry per point, and with an empty cover every entry is
    -1. *)
Theorem disjoint_index_range :
  forall {double} {D : DoubleOps double} (x bnds : NumericMatrix double) res,
  constructLevelSetIndex x bnds = Ok res ->
  length res = nrow x /\
  Forall (fun v => v = (-1)%Z \/ (1 <= v <= Z.of_nat (nrow bnds))%Z) res /\
  (nrow bnds = 0 -> res = repeat (-1)%Z (nrow x)).
Proof.
  intros double D x bnds res H.
  apply constructLevelSetIndex_Ok in H as (_ & _ & ->).
  split; [apply length_map|]. split.
  - apply Forall_map, Forall_forall. intros p _.
    apply index_of_point_range.
  - intros Hempty. unfold nrow.
    induction (mrows x) as [|p rows IH]; simpl; [reflexivity|].
    rewrite IH. f_equal.
    unfold index_of_point, last_matching. now rewrite Hempty.
Qed.

Lemma disjoint_index_range_witness :
  Forall (fun v => v = (-1)%Z \/ (1 <= v <= 2)%Z) [1; 2; -1]%Z.
Proof.
  assert (H : constructLevelSetIndex sample_points sample_cover
              = Ok [1; 2; -1]%Z) by (vm_compute; reflexivity).
  exact (proj1 (proj2 (disjoint_index_range sample_points sample_cover _ H))).
Defined.

(** Extra X5.  On points and bounds without missing values, when a point
    lies, within the tolerance, in at most one bin of the cover,
    [constructLevelSetIndex] reports bin [i] for it exactly when bin [i]
    contains it: on a disjoint cover the order of the bins does not
    matter. *)
Theorem disjoint_index_unique_bin :
  forall {double} {D : DoubleOps double} (x bnds : NumericMatrix double) r p,
  ncol x = ncol bnds / 2 ->
  points_defined x (ncol bnds / 2) -> widened_bounds_defined bnds ->
  nth_error (mrows x) r = Some p ->
  (forall i j, i < nrow bnds -> j < nrow bnds ->
     contains_epsb (row bnds i) (ncol bnds / 2) p = true ->
     contains_epsb (row bnds j) (ncol bnds / 2) p = true -> i = j) ->
  exists res,
    constructLevelSetIndex x bnds = Ok res /\
    forall i, i < nrow bnds ->
      (nth_error res r = Some (Z.of_nat i + 1)%Z <->
       contains_epsb (row bnds i) (ncol bnds / 2) p = true).
Proof.
  intros double D x bnds r p Hdim Hx Hb Hp Hone.
  eexists. split; [now apply constructLevelSetIndex_defined|].
  intros i Hi. rewrite nth_error_map, Hp. cbn [option_map].
  rewrite <- (index_of_point_unique bnds p Hone i Hi).
  split; [now intros [= ->] | now intros ->].
Qed.

Lemma disjoint_index_unique_bin_witness :
  exists res,
    constructLevelSetIndex sample_points sample_cover = Ok res /\
    nth_error res 0 = Some 1%Z.
Proof.
  destruct (disjoint_index_unique_bin sample_points sample_cover 0
              [0.5%float] eq_refl sample_points_defined
              (proj2 sample_cover_defined) eq_refl)
    as (res & Hres & Hbin).
  - intros i j Hi Hj. change (nrow sample_cover) with 2 in Hi, Hj.
    destruct i as [|[|i]]; destruct j as [|[|j]]; try lia;
      vm_compute; congruence.
  - exists res. split; [exact Hres|].
    apply (Hbin 0); [vm_compute; lia | vm_compute; reflexivity].
Defined.

(** Extra X6.  [constructIsoAlignedLevelSets] with [save_bounds] attaches
    to the level set of every box the bounds given for it, unchanged and
    in the order of the rows; without [save_bounds] it attaches none; the
    point indices returned are the same either way. *)
Theorem iso_aligned_bounds_round_trip :
  forall {double} {D : DoubleOps double} (x bnds : NumericMatrix double),
  ncol x = ncol bnds / 2 ->
  exists saved plain,
    constructIsoAlignedLevelSets x bnds true = Ok saved /\
    constructIsoAlignedLevelSets x bnds false = Ok plain /\
    map ls_attr_bounds saved = map Some (mrows bnds) /\
    Forall (fun ls => ls_attr_bounds ls = None) plain /\
    map ls_points saved = map ls_points plain.
Proof.
  intros double D x bnds Hdim.
  rewrite !constructIsoAlignedLevelSets_spec by exact Hdim.
  eexists; eexists. split; [reflexivity|]. split; [reflexivity|].
  split; [|split].
  - rewrite map_map. cbn [ls_attr_bounds].
    rewrite <- (map_map (row bnds) Some). f_equal.
    apply (map_nth_seq_id (mrows bnds) []).
  - apply Forall_map, Forall_forall. now intros i _.
  - rewrite !map_map. reflexivity.
Qed.

Lemma iso_aligned_bounds_round_trip_witness :
  exists saved,
    constructIsoAlignedLevelSets sample_points sample_cover true = Ok saved /\
    map ls_attr_bounds saved = [Some [0; 1]; Some [1; 2]]%float.
Proof.
  destruct (iso_aligned_bounds_round_trip sample_points sample_cover eq_refl)
    as (saved & plain & Hsaved & _ & Hattr & _).
  exists saved. split; [exact Hsaved | exact Hattr].
Defined.

Section GridMembership.
Context {double : Type} {D : DoubleOps double}.

(** A level set built from its bounds matrix: when no tested coordinate
    and no bound is missing, it holds the positions of the points that
    pass the inclusive test against those bounds. *)
Lemma bounded_level_sets_membership :
  forall (fv : NumericMatrix double) (bnds_of : nat -> NumericMatrix double)
         d n i ls,
  nth_error
    (map (fun i =>
            let ls_bnds := bnds_of i in
            mkBoundedLevelSet
              (which_true
                 (map (box_test (mget ls_bnds 0) (mget ls_bnds 1) d)
                      (mrows fv)))
              ls_bnds)
         (seq 0 n)) i = Some ls ->
  i < n /\ bounds ls = bnds_of i /\
  (points_defined fv d ->
   (forall k, k < d -> dis_nan (mget (bounds ls) 0 k) = false /\
                       dis_nan (mget (bounds ls) 1 k) = false) ->
   forall v,
     In v (points_in_level_set ls) <->
     exists r p, nth_error (mrows fv) r = Some p /\
                 v = (Z.of_nat r + 1)%Z /\
                 forall k, k < d ->
                   dleb (mget (bounds ls) 0 k) (nth k p (of_int 0)) = true /\
                   dleb (nth k p (of_int 0)) (mget (bounds ls) 1 k) = true).
Proof.
  intros fv bnds_of d n i ls H.
  apply nth_error_map_seq_inv in H as [Hi ->]. cbv zeta.
  split; [exact Hi|]. split; [reflexivity|].
  cbn [points_in_level_set bounds]. intros Hx Hb v.
  assert (Htest : forall p, In p (mrows fv) ->
            truthy (box_test (mget (bnds_of i) 0) (mget (bnds_of i) 1) d p) =
            in_box (mget (bnds_of i) 0) (mget (bnds_of i) 1) d p).
  { intros p Hp. rewrite box_test_defined; [apply truthy_of_bool|].
    apply tested_nan_false. intros k Hk. destruct (Hb k Hk) as [Hlo Hhi].
    split; [exact Hlo|]. split; [now apply Hx | exact Hhi]. }
  rewrite In_which_true_map. split.
  - intros (r & p & Hp & Hin & ->). exists r, p.
    split; [exact Hp|]. split; [reflexivity|].
    rewrite Htest in Hin by (now apply nth_error_In in Hp).
    exact (proj1 (in_box_true _ _ _ _) Hin).
  - intros (r & p & Hp & -> & Hc). exists r, p.
    split; [exact Hp|]. split; [|reflexivity].
    rewrite Htest by (now apply nth_error_In in Hp).
    exact (proj2 (in_box_true _ _ _ _) Hc).
Qed.

End GridMembership.

(** Extra X7.  On a feature matrix with at least as many columns as
    [index_set], [constructFixedLevelSets] and
    [constructRestrainedLevelSets] return one level set per row of
    [index_set], each with a bounds matrix of two rows.  When no point
    has a missing value among the tested coordinates and the bounds
    returned for a level set hold no missing value, its point indices are
    the positions, counted from 1, of exactly the points that lie within
    those bounds in every dimension, bounds included and without
    tolerance. *)
Theorem grid_level_sets_match_their_bounds :
  forall {double} {D : DoubleOps double} (fv : NumericMatrix double)
         index_set overlap number_intervals filter_range filter_len
         interval_length step_size filter_min,
  let inside (ls : BoundedLevelSet double) (p : list double) :=
    forall k, k < ncol index_set ->
      dleb (mget (bounds ls) 0 k) (nth k p (of_int 0)) = true /\
      dleb (nth k p (of_int 0)) (mget (bounds ls) 1 k) = true in
  let defined (ls : BoundedLevelSet double) :=
    forall k, k < ncol index_set ->
      dis_nan (mget (bounds ls) 0 k) = false /\
      dis_nan (mget (bounds ls) 1 k) = false in
  let sound (sets : list (BoundedLevelSet double)) :=
    length sets = nrow index_set /\
    forall i ls, nth_error sets i = Some ls ->
      ncol (bounds ls) = ncol index_set /\
      length (mrows (bounds ls)) = 2 /\
      (points_defined fv (ncol index_set) -> defined ls ->
       forall v,
         In v (points_in_level_set ls) <->
         exists r p, nth_error (mrows fv) r = Some p /\
                     v = (Z.of_nat r + 1)%Z /\ inside ls p) in
  ncol index_set <= ncol fv ->
  sound (constructFixedLevelSets fv index_set overlap number_intervals
           filter_range filter_len) /\
  sound (constructRestrainedLevelSets fv index_set interval_length step_size
           filter_min).
Proof.
  intros double D fv index_set overlap ni fr fl il ss fmin
         inside defined sound _.
  split.
  - rewrite constructFixedLevelSets_spec. split.
    + now rewrite length_map, length_seq.
    + intros i ls Hls.
      apply bounded_level_sets_membership in Hls as (_ & Hb & Hmem).
      rewrite Hb at 1 2. split; [reflexivity|]. split; [reflexivity|].
      exact Hmem.
  - rewrite constructRestrainedLevelSets_spec. split.
    + now rewrite length_map, length_seq.
    + intros i ls Hls.
      apply bounded_level_sets_membership in Hls as (_ & Hb & Hmem).
      rewrite Hb at 1 2. split; [reflexivity|]. split; [reflexivity|].
      exact Hmem.
Qed.

Lemma grid_level_sets_match_their_bounds_witness :
  exists ls,
    nth_error (constructFixedLevelSets sample_points
                 (mkMatrix 1 [[1%Z]; [2%Z]]) [0.2%float] [5%Z]
                 scenario_range [10%float]) 0 = Some ls /\
    In 2%Z (points_in_level_set ls).
Proof.
  destruct (nth_error (constructFixedLevelSets sample_points
                         (mkMatrix 1 [[1%Z]; [2%Z]]) [0.2%float] [5%Z]
                         scenario_range [10%float]) 0) as [ls|] eqn:E;
    [|discriminate E].
  exists ls. split; [reflexivity|].
  destruct (proj1 (grid_level_sets_match_their_bounds sample_points
                     (mkMatrix 1 [[1%Z]; [2%Z]]) [0.2%float] [5%Z]
                     scenario_range [10%float] [] [] [] (le_n 1)))
    as [_ Hsound].
  destruct (Hsound 0 ls E) as (_ & _ & Hmem).
  injection E as <-.
  apply Hmem.
  - exact sample_points_defined.
  - intros k Hk. destruct k as [|k]; [|cbn in Hk; lia].
    vm_compute. split; reflexivity.
  - exists 1, [1%float]. split; [reflexivity|]. split; [reflexivity|].
    intros k Hk. destruct k as [|k]; [|cbn in Hk; lia].
    vm_compute. split; reflexivity.
Defined.

Section RestrainedGrid.
Context {double : Type} {D : DoubleOps double}.

(** The bounds computed for one requested bin of the restrained grid. *)
Lemma restrained_ls_bnds_formula :
  forall index_set (interval_length step_size filter_min : list double) i k,
  k < ncol index_set -> k < length (row index_set i) ->
  k < length filter_min ->
  let g := (nth k (row index_set i) 0 - 1)%Z in
  let lo := dadd (nth k filter_min (of_int 0))
                 (dmul (of_int g) (nth k step_size (of_int 0))) in
  let ls_bnds := restrained_ls_bnds index_set interval_length step_size
                   filter_min i in
  mget ls_bnds 0 k = lo /\
  mget ls_bnds 1 k = dadd lo (nth k interval_length (of_int 0)).
Proof.
  intros index_set il ss fmin i k Hd Hrow Hmin g lo ls_bnds.
  assert (Hlo : nth k
    (vec_op dadd fmin
       (vec_op dmul (as_numeric (map (fun v => (v - 1)%Z) (row index_set i)))
               ss)) (of_int 0) = lo).
  { rewrite nth_vec_op by assumption.
    rewrite nth_vec_op by (unfold as_numeric; now rewrite !length_map).
    rewrite nth_as_numeric, (nth_map_in _ _ _ 0%Z) by assumption.
    reflexivity. }
  unfold ls_bnds, restrained_ls_bnds. cbv zeta.
  rewrite mget_min, mget_max, !nth_row_assign by assumption.
  split; [exact Hlo|].
  rewrite (nth_vec_op dadd (vec_op dadd fmin _)) by (now rewrite vec_op_length).
  now rewrite Hlo.
Qed.

End RestrainedGrid.

(** Extra X8.  For every requested bin and dimension,
    [constructRestrainedLevelSets] returns the lower bound
    filter_min + (index - 1) * step_size and the upper bound
    lower + interval_length, the index being the entry of [index_set]:
    the entries are 1-based here as well. *)
Theorem restrained_grid_bounds :
  forall {double} {D : DoubleOps double} (fv : NumericMatrix double)
         index_set interval_length step_size filter_min i k,
  i < nrow index_set -> k < ncol index_set ->
  k < length (row index_set i) -> k < length filter_min ->
  k < length step_size -> k < length interval_length ->
  exists ls,
    nth_error (constructRestrainedLevelSets fv index_set interval_length
                 step_size filter_min) i = Some ls /\
    let g := (nth k (row index_set i) 0 - 1)%Z in
    let lo := dadd (nth k filter_min (of_int 0))
                   (dmul (of_int g) (nth k step_size (of_int 0))) in
    mget (bounds ls) 0 k = lo /\
    mget (bounds ls) 1 k = dadd lo (nth k interval_length (of_int 0)).
Proof.
  intros double D fv index_set il ss fmin i k Hi Hk Hrow Hmin _ _.
  rewrite constructRestrainedLevelSets_spec.
  eexists. split; [now apply nth_error_map_seq|].
  cbv zeta. cbn [bounds]. now apply restrained_ls_bnds_formula.
Qed.

Lemma restrained_grid_bounds_witness :
  exists ls,
    nth_error (constructRestrainedLevelSets sample_points
                 (mkMatrix 1 [[1%Z]; [2%Z]]) [2.5%float] [2%float]
                 [(-0.25)%float]) 1 = Some ls /\
    mget (bounds ls) 0 0 = 1.75%float /\ mget (bounds ls) 1 0 = 4.25%float.
Proof.
  destruct (restrained_grid_bounds sample_points
              (mkMatrix 1 [[1%Z]; [2%Z]]) [2.5%float] [2%float]
              [(-0.25)%float] 1 0)
    as (ls & Hls & Hlo & Hhi);
    [vm_compute; lia .. |].
  exists ls. split; [exact Hls|]. rewrite Hlo, Hhi.
  split; vm_compute; reflexivity.
Defined.

(** Extra X9.  In exact arithmetic every box of the restrained grid has
    width interval_length, and two bins whose indices differ by 1 along a
    dimension, for a step that is not negative, meet along it in an
    interval of width interval_length - step_size (a negative value is the
    gap between them). *)
Theorem restrained_grid_adjacent_overlap :
  forall (fv : NumericMatrix Q) index_set interval_length step_size
         filter_min i j k ls_i ls_j,
  k < ncol index_set ->
  k < length (row index_set i) -> k < length (row index_set j) ->
  k < length filter_min ->
  k < length step_size -> k < length interval_length ->
  nth k (row index_set j) 0%Z = (nth k (row index_set i) 0 + 1)%Z ->
  (0 <= nth k step_size 0)%Q ->
  nth_error (constructRestrainedLevelSets (D := exactQ) fv index_set
               interval_length step_size filter_min) i = Some ls_i ->
  nth_error (constructRestrainedLevelSets (D := exactQ) fv index_set
               interval_length step_size filter_min) j = Some ls_j ->
  (mget (D := exactQ) (bounds ls_i) 1 k -
   mget (D := exactQ) (bounds ls_i) 0 k == nth k interval_length 0)%Q /\
  (mget (D := exactQ) (bounds ls_j) 0 k -
   mget (D := exactQ) (bounds ls_i) 0 k == nth k step_size 0)%Q /\
  (overlap_along ls_i ls_j k ==
   nth k interval_length 0 - nth k step_size 0)%Q.
Proof.
  intros fv index_set il ss fmin i j k ls_i ls_j
         Hk Hri Hrj Hmin _ _ Hadj Hstep Hi Hj.
  rewrite constructRestrainedLevelSets_spec in Hi, Hj.
  apply nth_error_map_seq_inv in Hi as [_ ->], Hj as [_ ->].
  unfold overlap_along. cbv zeta. cbn [bounds].
  destruct (restrained_ls_bnds_formula (D := exactQ) index_set il ss fmin
              i k Hk Hri Hmin) as [Hlo_i Hhi_i].
  destruct (restrained_ls_bnds_formula (D := exactQ) index_set il ss fmin
              j k Hk Hrj Hmin) as [Hlo_j Hhi_j].
  cbv zeta in Hlo_i, Hhi_i, Hlo_j, Hhi_j.
  rewrite Hlo_i, Hhi_i, Hlo_j, Hhi_j, Hadj.
  cbn [dadd dsub dmul ddiv of_int exactQ].
  change (inject_Z 0) with 0%Q.
  replace (nth k (row index_set i) 0 + 1 - 1)%Z
    with ((nth k (row index_set i) 0 - 1) + 1)%Z by lia.
  rewrite inject_Z_plus. change (inject_Z 1) with 1%Q.
  set (g := inject_Z (nth k (row index_set i) 0 - 1)%Z).
  set (f := nth k fmin 0%Q). set (s := nth k ss 0%Q) in *.
  set (l := nth k il 0%Q).
  rewrite Q.min_l by lra. rewrite Q.max_r by lra.
  repeat split; ring.
Qed.

Lemma restrained_grid_adjacent_overlap_witness :
  exists ls_i ls_j,
    (overlap_along ls_i ls_j 0 == 1 # 2)%Q /\
    nth_error (constructRestrainedLevelSets (D := exactQ) (mkMatrix 1 [])
                 (mkMatrix 1 [[1%Z]; [2%Z]]) [5 # 2]%Q [2]%Q [- (1 # 4)]%Q) 0
      = Some ls_i.
Proof.
  destruct (constructRestrainedLevelSets (D := exactQ) (mkMatrix 1 [])
              (mkMatrix 1 [[1%Z]; [2%Z]]) [5 # 2]%Q [2]%Q [- (1 # 4)]%Q)
    as [|ls_i [|ls_j rest]] eqn:E; [discriminate E | discriminate E |].
  exists ls_i, ls_j.
  destruct (restrained_grid_adjacent_overlap (mkMatrix 1 [])
              (mkMatrix 1 [[1%Z]; [2%Z]]) [5 # 2]%Q [2]%Q [- (1 # 4)]%Q
              0 1 0 ls_i ls_j)
    as (_ & _ & Hw);
    try (vm_compute; lia); try (cbn; lra); try reflexivity;
    try (rewrite E; reflexivity).
  split; [|reflexivity]. rewrite Hw. vm_compute. reflexivity.
Defined.

(** Extra X10.  In exact arithmetic the fixed grid is the restrained grid
    with step baseLength, interval length 2 * halfWidth and minimum
    filterMin + baseLength / 2 - halfWidth: on the same [index_set] the two
    constructors return the same bounds. *)
Theorem fixed_grid_is_a_restrained_grid :
  forall (fv : NumericMatrix Q) index_set overlap number_intervals
         filter_range filter_len i k ls_f ls_r,
  k < ncol index_set -> k < length (row index_set i) ->
  k < length overlap -> k < length filter_len ->
  k < length (row filter_range 0) ->
  let d := ncol index_set in
  let b := base_length (D := exactQ) filter_len number_intervals in
  let h := half_width (D := exactQ) filter_len number_intervals overlap in
  let step_size := map b (seq 0 d) in
  let interval_length := map (fun k => 2 * h k)%Q (seq 0 d) in
  let filter_min :=
    map (fun k => nth k (row filter_range 0) 0 + b k / 2 - h k)%Q (seq 0 d) in
  nth_error (constructFixedLevelSets (D := exactQ) fv index_set overlap
               number_intervals filter_range filter_len) i = Some ls_f ->
  nth_error (constructRestrainedLevelSets (D := exactQ) fv index_set
               interval_length step_size filter_min) i = Some ls_r ->
  (mget (D := exactQ) (bounds ls_f) 0 k ==
   mget (D := exactQ) (bounds ls_r) 0 k)%Q /\
  (mget (D := exactQ) (bounds ls_f) 1 k ==
   mget (D := exactQ) (bounds ls_r) 1 k)%Q.
Proof.
  intros fv index_set overlap ni fr fl i k ls_f ls_r Hk Hrow Hov Hfl Hmin
         d b h step_size interval_length filter_min Hf Hr.
  rewrite constructFixedLevelSets_spec in Hf.
  rewrite constructRestrainedLevelSets_spec in Hr.
  apply nth_error_map_seq_inv in Hf as [_ ->], Hr as [_ ->].
  cbv zeta. cbn [bounds].
  destruct (fixed_ls_bnds_formula (D := exactQ) index_set overlap ni fr fl
              i k Hk Hrow Hov Hfl Hmin) as [Hlo_f Hhi_f].
  assert (Hlen : k < length filter_min)
    by (unfold filter_min; now rewrite length_map, length_seq).
  destruct (restrained_ls_bnds_formula (D := exactQ) index_set
              interval_length step_size filter_min i k Hk Hrow Hlen)
    as [Hlo_r Hhi_r].
  cbv zeta in Hlo_f, Hhi_f, Hlo_r, Hhi_r.
  rewrite Hlo_f, Hhi_f, Hlo_r, Hhi_r.
  unfold filter_min, step_size, interval_length.
  rewrite !nth_map_seq by exact Hk.
  unfold centroid. fold (b k). fold (h k).
  cbn [dadd dsub dmul ddiv of_int exactQ].
  change (inject_Z 2) with 2%Q. change (inject_Z 0) with 0%Q.
  generalize (b k) (h k) (nth k (row fr 0) 0%Q)
             (inject_Z (nth k (row index_set i) 0 - 1)%Z).
  intros bk hk f g. split; field.
Qed.

Lemma fixed_grid_is_a_restrained_grid_witness :
  exists ls_f ls_r,
    nth_error scenario_sets_Q 1 = Some ls_f /\
    (mget (D := exactQ) (bounds ls_f) 0 0 ==
     mget (D := exactQ) (bounds ls_r) 0 0)%Q /\
    (mget (D := exactQ) (bounds ls_r) 1 0 == 17 # 4)%Q.
Proof.
  pose (index_set := mkMatrix 1 [[1%Z]; [2%Z]]).
  pose (b := base_length (D := exactQ) [10]%Q [5%Z]).
  pose (h := half_width (D := exactQ) [10]%Q [5%Z] [1 # 5]%Q).
  destruct (nth_error scenario_sets_Q 1) as [ls_f|] eqn:Ef;
    [|discriminate Ef].
  destruct (nth_error
              (constructRestrainedLevelSets (D := exactQ) (mkMatrix 1 [])
                 index_set (map (fun k => 2 * h k)%Q (seq 0 1))
                 (map b (seq 0 1))
                 (map (fun k => nth k [0]%Q 0 + b k / 2 - h k)%Q (seq 0 1)))
              1) as [ls_r|] eqn:Er; [|discriminate Er].
  exists ls_f, ls_r. split; [reflexivity|].
  destruct (fixed_grid_is_a_restrained_grid (mkMatrix 1 []) index_set
              [1 # 5]%Q [5%Z] (mkMatrix 1 [[0]; [10]]%Q) [10]%Q 1 0
              ls_f ls_r) as [Hlo Hhi];
    try (vm_compute; lia); try exact Ef; try exact Er.
  split; [exact Hlo|]. rewrite <- Hhi.
  injection Ef as <-. vm_compute. reflexivity.
Defined.

(* ================================================================== *)
(** * Further properties of the cover map *)

Lemma NoDup_map_injective : forall {A B} (f : A -> B) l,
  (forall a b, f a = f b -> a = b) -> NoDup l -> NoDup (map f l).
Proof.
  intros A B f l Hinj H; induction H as [|a l Ha H IH]; simpl; constructor;
    [|exact IH].
  intros Hin. apply in_map_iff in Hin as (b & Hb & Hin).
  apply Hinj in Hb. now subst.
Qed.

Section CoverMapEdges.
Context {double : Type} {D : DoubleOps double}.

Lemma intersecting_pairs_In : forall (ls1 ls2 : list (NumericMatrix double)) d i j,
  In (i, j) (intersecting_pairs ls1 ls2 d) <->
  i < length ls1 /\ j < length ls2 /\
  boxes_intersect (nth i ls1 empty_bounds) (nth j ls2 empty_bounds) d = true.
Proof.
  intros. unfold intersecting_pairs.
  rewrite filter_In, in_prod_iff, !in_seq. cbn [fst snd].
  split; [intros ((Hi & Hj) & H) | intros (Hi & Hj & H)];
    repeat split; auto; lia.
Qed.

Lemma intersecting_pairs_NoDup : forall (ls1 ls2 : list (NumericMatrix double)) d,
  NoDup (intersecting_pairs ls1 ls2 d).
Proof.
  intros. apply (StronglySorted_NoDup pair_lt).
  - intros [i j] [H | [_ H]]; simpl in H; lia.
  - apply StronglySorted_filter, list_prod_seq_sorted.
Qed.

Lemma boxes_intersect_sym : forall (b1 b2 : NumericMatrix double) d,
  boxes_intersect b1 b2 d = boxes_intersect b2 b1 d.
Proof.
  intros. unfold boxes_intersect.
  induction (seq 0 (Z.to_nat d)) as [|k ks IH]; simpl; [reflexivity|].
  now rewrite IH, (andb_comm (dleb (mget b1 0 k) (mget b2 1 k))).
Qed.

Lemma intersecting_pairs_transpose : forall (ls1 ls2 : list (NumericMatrix double)) d,
  Permutation (map (fun p => (snd p, fst p)) (intersecting_pairs ls1 ls2 d))
              (intersecting_pairs ls2 ls1 d).
Proof.
  intros. apply NoDup_Permutation.
  - apply NoDup_map_injective; [|apply intersecting_pairs_NoDup].
    intros [a b] [a' b'] [= -> ->]. reflexivity.
  - apply intersecting_pairs_NoDup.
  - intros [j i]. rewrite in_map_iff, intersecting_pairs_In. split.
    + intros ([i' j'] & [= <- <-] & H).
      apply intersecting_pairs_In in H as (Hi & Hj & H).
      rewrite boxes_intersect_sym. auto.
    + intros (Hj & Hi & H). exists (i, j). split; [reflexivity|].
      apply intersecting_pairs_In. rewrite boxes_intersect_sym. auto.
Qed.

End CoverMapEdges.

(** Extra X11.  Swapping the two covers transposes the cover map: the
    rows of [createCoverMap ls2 ls1 d] are the rows of
    [createCoverMap ls1 ls2 d] with their two entries exchanged, up to the
    order of the rows. *)
Theorem cover_map_transpose :
  forall {double} {D : DoubleOps double} (ls1 ls2 : list (NumericMatrix double))
         (d : Z),
  Permutation (map (@rev double) (mrows (createCoverMap ls1 ls2 d)))
              (mrows (createCoverMap ls2 ls1 d)).
Proof.
  intros double D ls1 ls2 d. rewrite !createCoverMap_spec. cbn [mrows].
  rewrite map_map. cbn [rev app].
  rewrite <- (map_map (fun p : nat * nat => (snd p, fst p))
                (fun p => [of_int (Z.of_nat (fst p));
                           of_int (Z.of_nat (snd p))])).
  apply Permutation_map, intersecting_pairs_transpose.
Qed.

(** Extra X12.  [createCoverMap] returns at most one row per pair of
    boxes, none when either cover is empty, and, when [d] is zero or
    negative, one row for every pair whatever the bounds are. *)
Theorem cover_map_size :
  forall {double} {D : DoubleOps double} (ls1 ls2 : list (NumericMatrix double))
         (d : Z),
  nrow (createCoverMap ls1 ls2 d) <= length ls1 * length ls2 /\
  (ls1 = [] \/ ls2 = [] -> mrows (createCoverMap ls1 ls2 d) = []) /\
  ((d <= 0)%Z ->
   nrow (createCoverMap ls1 ls2 d) = length ls1 * length ls2).
Proof.
  intros double D ls1 ls2 d. rewrite createCoverMap_spec.
  unfold nrow. cbn [mrows]. rewrite length_map. unfold intersecting_pairs.
  split; [|split].
  - etransitivity; [apply filter_length_le|].
    now rewrite length_prod, !length_seq.
  - intros [-> | ->]; simpl; [reflexivity|].
    replace (list_prod (seq 0 (length ls1)) []) with (@nil (nat * nat));
      [reflexivity|].
    induction (seq 0 (length ls1)); simpl; auto.
  - intros Hd. unfold boxes_intersect.
    replace (Z.to_nat d) with 0 by lia. cbn [seq forallb].
    now rewrite filter_true, length_prod, !length_seq.
Qed.

(** Extra X13.  A box whose lower bound is at most its upper bound in
    each of the first [d] dimensions meets itself: the cover map of a
    cover with itself holds the row (i, i) for every such box. *)
Theorem cover_map_diagonal :
  forall {double} {D : DoubleOps double} (ls : list (NumericMatrix double))
         (d : Z) i,
  i < length ls ->
  (forall k, k < Z.to_nat d ->
     dleb (mget (nth i ls empty_bounds) 0 k)
          (mget (nth i ls empty_bounds) 1 k) = true) ->
  In [of_int (Z.of_nat i); of_int (Z.of_nat i)]
     (mrows (createCoverMap ls ls d)).
Proof.
  intros double D ls d i Hi Hbox. rewrite createCoverMap_spec. cbn [mrows].
  apply in_map_iff. exists (i, i). split; [reflexivity|].
  apply intersecting_pairs_In. split; [exact Hi|]. split; [exact Hi|].
  unfold boxes_intersect. apply forallb_forall. intros k Hk.
  apply in_seq in Hk. rewrite Hbox by lia. reflexivity.
Qed.

Lemma cover_map_diagonal_witness :
  In [of_int 0%Z; of_int 0%Z]
     (mrows (createCoverMap [unit_interval] [unit_interval] 1)).
Proof.
  apply (cover_map_diagonal [unit_interval] 1 0).
  - simpl; lia.
  - intros k Hk. change (Z.to_nat 1) with 1 in Hk.
    destruct k as [|k]; [reflexivity | lia].
Defined.

(* ================================================================== *)
(** * Further properties of the candidate table and the adjacency list *)

Lemma valid_pairs_spec : forall table,
  well_shaped table -> 1 <= ncol table ->
  valid_pairs table = Ok (compact_pairs table).
Proof.
  intros table Hshape Hcol. unfold valid_pairs.
  replace (Z.of_nat (nrow table) * (Z.of_nat (ncol table) - 1) <? 0)%Z
    with false by (symmetry; apply Z.ltb_ge; nia).
  rewrite valid_pairs_loops_spec by assumption. f_equal.
  rewrite (map_nth_pairs pair fst snd).
  rewrite <- (map_id (compact_pairs table)) at 2.
  apply map_ext. now intros [a b].
Qed.

Lemma filter_nil_iff : forall {A} (f : A -> bool) l,
  filter f l = [] <-> Forall (fun a => f a = false) l.
Proof.
  intros A f l; induction l as [|a l IH]; simpl.
  - split; constructor.
  - destruct (f a) eqn:E; split; intros H.
    + discriminate.
    + inversion H; congruence.
    + constructor; [exact E | now apply IH].
    + inversion H; now apply IH.
Qed.

(** Extra X14.  [valid_pairs] fails exactly on a table that has rows but
    no column.  On a table with at least the id column it returns no edge
    exactly when every candidate entry is the sentinel, in particular when
    the id column is the only one. *)
Theorem valid_pairs_edge_cases : forall table : Matrix Z,
  (valid_pairs table = Stop "vector::reserve" <->
   0 < nrow table /\ ncol table = 0) /\
  (well_shaped table -> 1 <= ncol table ->
   (valid_pairs table = Ok [] <->
    Forall (fun pairs => Forall (fun c => c = NA_INTEGER) (tl pairs))
           (mrows table))).
Proof.
  intros table. split.
  - unfold valid_pairs.
    destruct (Z.of_nat (nrow table) * (Z.of_nat (ncol table) - 1) <? 0)%Z
      eqn:E.
    + apply Z.ltb_lt in E. split; [intros _; nia | reflexivity].
    + apply Z.ltb_ge in E. split; [|intros [H0 H1]; nia].
      destruct (valid_pairs_loops table). discriminate.
  - intros Hshape Hcol. rewrite valid_pairs_spec by assumption.
    unfold compact_pairs, candidates. split.
    + intros [= H]. apply Forall_forall. intros pairs Hin.
      assert (Hc : filter (fun c => negb (is_na c)) (tl pairs) = []).
      { destruct (filter _ (tl pairs)) as [|c cs] eqn:Ec; [reflexivity|].
        exfalso.
        assert (Hin' : In (nth 0 pairs 0%Z, c)
                 (flat_map
                    (fun pairs => map (fun c => (nth 0 pairs 0%Z, c))
                       (filter (fun c => negb (is_na c)) (tl pairs)))
                    (mrows table))).
        { apply in_flat_map. exists pairs. split; [exact Hin|].
          rewrite Ec. now left. }
        now rewrite H in Hin'. }
      apply filter_nil_iff in Hc. revert Hc. apply Forall_impl.
      intros c Hc. unfold is_na in Hc.
      apply negb_false_iff, Z.eqb_eq in Hc. exact Hc.
    + intros Hall. f_equal.
      induction (mrows table) as [|pairs rows IH]; simpl; [reflexivity|].
      inversion Hall as [|? ? Hp Hrows]; subst.
      rewrite IH by assumption.
      replace (filter (fun c => negb (is_na c)) (tl pairs)) with (@nil Z);
        [reflexivity|].
      symmetry. apply filter_nil_iff. revert Hp. apply Forall_impl.
      intros c ->. reflexivity.
Qed.

Lemma valid_pairs_edge_cases_witness :
  valid_pairs (mkMatrix 1 [[1]; [2]]%Z) = Ok [].
Proof.
  apply (proj2 (valid_pairs_edge_cases (mkMatrix 1 [[1]; [2]]%Z))).
  - repeat constructor.
  - cbn; lia.
  - repeat constructor.
Defined.

Lemma adjacency_edges_insert : forall m from to,
  Permutation (adjacency_edges (insert_edge m from to))
              (adjacency_edges m ++ [(from, to)]).
Proof.
  unfold adjacency_edges.
  induction m as [|[k v] m IH]; intros from to; simpl.
  - reflexivity.
  - destruct (k <? from)%Z; simpl.
    + rewrite <- app_assoc. apply Permutation_app_head, IH.
    + destruct (k =? from)%Z eqn:E; simpl.
      * apply Z.eqb_eq in E. subst k.
        rewrite map_app, <- !app_assoc. apply Permutation_app_head.
        simpl. apply Permutation_cons_append.
      * apply (Permutation_cons_append
                 (map (pair k) v ++
                  flat_map (fun entry => map (pair (fst entry)) (snd entry)) m)
                 (from, to)).
Qed.

(** Extra X15.  Expanding the adjacency list returned by
    [edgelist_to_adjacencylist] gives back the edge list up to order:
    every edge is kept, with its multiplicity, and none is added; the
    destination lists have as many entries in all as there are edges. *)
Theorem adjacency_list_round_trip : forall el : list (Z * Z),
  Permutation (adjacency_edges (edgelist_to_adjacencylist el)) el /\
  list_sum (map (fun entry => length (snd entry))
                (edgelist_to_adjacencylist el)) = length el.
Proof.
  intros el.
  assert (Hperm : Permutation (adjacency_edges (edgelist_to_adjacencylist el)) el).
  { unfold edgelist_to_adjacencylist.
    induction el as [|[from to] el IH] using rev_ind; [reflexivity|].
    rewrite fold_left_app. cbn [fold_left]. rewrite add_edge_insert.
    etransitivity; [apply adjacency_edges_insert|].
    now apply Permutation_app_tail. }
  split; [exact Hperm|].
  rewrite <- (Permutation_length Hperm). clear Hperm.
  unfold adjacency_edges.
  induction (edgelist_to_adjacencylist el) as [|[k v] m IH]; simpl;
    [reflexivity|].
  now rewrite length_app, length_map, IH.
Qed.

Lemma destinations_own_row : forall own cs k,
  destinations (map (pair own) cs) k = if (own =? k)%Z then cs else [].
Proof.
  intros own cs k. unfold destinations.
  induction cs as [|c cs IH]; simpl.
  - now destruct (own =? k)%Z.
  - destruct (own =? k)%Z; simpl; [now rewrite IH | exact IH].
Qed.

Lemma destinations_rows : forall pairs rows k,
  destinations
    (flat_map (fun pairs => map (fun c => (nth 0 pairs 0%Z, c))
                                (candidates pairs)) (pairs :: rows)) k =
  (if (nth 0 pairs 0 =? k)%Z then candidates pairs else []) ++
  destinations
    (flat_map (fun pairs => map (fun c => (nth 0 pairs 0%Z, c))
                                (candidates pairs)) rows) k.
Proof.
  intros. simpl. unfold destinations at 1.
  rewrite filter_app, map_app. f_equal.
  apply (destinations_own_row (nth 0 pairs 0%Z)).
Qed.

Lemma destinations_absent_row : forall rows k,
  ~ In k (map (fun pairs => nth 0 pairs 0%Z) rows) ->
  destinations
    (flat_map (fun pairs => map (fun c => (nth 0 pairs 0%Z, c))
                                (candidates pairs)) rows) k = [].
Proof.
  induction rows as [|pairs rows IH]; intros k Hk; [reflexivity|].
  rewrite destinations_rows. simpl in Hk.
  destruct (nth 0 pairs 0 =? k)%Z eqn:E.
  - apply Z.eqb_eq in E. tauto.
  - apply IH. tauto.
Qed.

Lemma destinations_of_row : forall rows pairs,
  NoDup (map (fun pairs => nth 0 pairs 0%Z) rows) -> In pairs rows ->
  destinations
    (flat_map (fun pairs => map (fun c => (nth 0 pairs 0%Z, c))
                                (candidates pairs)) rows)
    (nth 0 pairs 0%Z) = candidates pairs.
Proof.
  induction rows as [|p rows IH]; intros pairs Hnd Hin; [contradiction|].
  rewrite destinations_rows. simpl in Hnd.
  apply NoDup_cons_iff in Hnd as [Hp Hnd]. destruct Hin as [-> | Hin].
  - rewrite Z.eqb_refl, destinations_absent_row by exact Hp.
    apply app_nil_r.
  - destruct (nth 0 p 0 =? nth 0 pairs 0)%Z eqn:E.
    + apply Z.eqb_eq in E. exfalso. apply Hp. rewrite E.
      now apply (in_map (fun pairs => nth 0 pairs 0%Z)).
    + now apply IH.
Qed.

(** Extra X16.  Compacting a candidate table whose own ids are distinct
    and building the adjacency list of the result gives, for every row
    that has a candidate, the entry (own id, candidates of the row that
    are not the sentinel, in column order), and nothing else. *)
Theorem table_to_adjacency_list : forall table : Matrix Z,
  well_shaped table -> 1 <= ncol table ->
  NoDup (map (fun pairs => nth 0 pairs 0%Z) (mrows table)) ->
  exists edges,
    valid_pairs table = Ok edges /\
    forall k v,
      In (k, v) (edgelist_to_adjacencylist edges) <->
      (exists pairs, In pairs (mrows table) /\ nth 0 pairs 0%Z = k /\
                     candidates pairs = v) /\ v <> [].
Proof.
  intros table Hshape Hcol Hids. exists (compact_pairs table).
  split; [now apply valid_pairs_spec|].
  destruct (edgelist_to_adjacencylist_adjacency (compact_pairs table))
    as (_ & Hkeys & Hvals).
  intros k v. split.
  - intros Hin. pose proof (Hvals k v Hin) as ->.
    assert (Hk : In k (map fst (compact_pairs table))).
    { apply Hkeys. change k with (fst (k, destinations (compact_pairs table) k)).
      now apply in_map. }
    split; [|now apply destinations_not_nil].
    apply in_map_iff in Hk as (e & <- & He).
    apply compact_pairs_In in He as (pairs & Hrow & Hown & _).
    exists pairs. split; [exact Hrow|]. split; [now symmetry|].
    rewrite Hown. symmetry. now apply destinations_of_row.
  - intros ((pairs & Hrow & <- & <-) & Hne).
    assert (Hk : In (nth 0 pairs 0%Z) (map fst (compact_pairs table))).
    { destruct (candidates pairs) as [|c cs] eqn:Ec; [contradiction|].
      apply in_map_iff. exists (nth 0 pairs 0%Z, c). split; [reflexivity|].
      unfold compact_pairs. apply in_flat_map. exists pairs.
      split; [exact Hrow|]. rewrite Ec. now left. }
    apply Hkeys, in_map_iff in Hk as ([k' v'] & Hk' & Hin).
    simpl in Hk'. subst k'. pose proof (Hvals _ _ Hin) as ->.
    assert (Hd : destinations (compact_pairs table) (nth 0 pairs 0%Z) =
                 candidates pairs)
      by (now apply destinations_of_row).
    now rewrite Hd in Hin.
Qed.

Lemma table_to_adjacency_list_witness :
  exists edges,
    valid_pairs sample_table = Ok edges /\
    In (2, [3])%Z (edgelist_to_adjacencylist edges).
Proof.
  destruct (table_to_adjacency_list sample_table)
    as (edges & Hres & Hadj).
  - repeat constructor.
  - cbn; lia.
  - cbn. repeat constructor; simpl; intuition discriminate.
  - exists edges. split; [exact Hres|]. apply Hadj. split; [|discriminate].
    exists [2; NA_INTEGER; 3]%Z. split; [|split; reflexivity].
    cbn. tauto.
Defined.

(* ================================================================== *)
(** * Properties of the box distances *)

Lemma set_difference_nil_r : forall a, set_difference a [] = a.
Proof. destruct a; reflexivity. Qed.

Lemma filter_all_above : forall a p,
  Forall (fun t => (p < t)%Z) a ->
  filter (fun t => negb (t =? p)%Z) a = a.
Proof.
  intros a p H. apply forallb_filter_id, forallb_forall.
  rewrite Forall_forall in H. intros t Ht. apply H in Ht.
  apply negb_true_iff, Z.eqb_neq. lia.
Qed.

(** Removing one value from a strictly increasing range. *)
Lemma set_difference_single : forall a p,
  StronglySorted Z.lt a ->
  set_difference a [p] = filter (fun t => negb (t =? p)%Z) a.
Proof.
  induction a as [|x a IH]; intros p Hs; [reflexivity|].
  apply StronglySorted_inv in Hs as [Hs Hx]. simpl.
  destruct (x <? p)%Z eqn:Hlt.
  - apply Z.ltb_lt in Hlt.
    replace (x =? p)%Z with false by (symmetry; apply Z.eqb_neq; lia).
    simpl. f_equal. now apply IH.
  - apply Z.ltb_ge in Hlt. destruct (p <? x)%Z eqn:Hgt.
    + apply Z.ltb_lt in Hgt.
      replace (x =? p)%Z with false by (symmetry; apply Z.eqb_neq; lia).
      simpl. f_equal. symmetry. apply filter_all_above.
      revert Hx. apply Forall_impl. intros; lia.
    + apply Z.ltb_ge in Hgt. assert (x = p) by lia. subst x.
      rewrite Z.eqb_refl, set_difference_nil_r. simpl.
      symmetry. now apply filter_all_above.
Qed.

Lemma iota1_sorted : forall n, StronglySorted Z.lt (iota1 n).
Proof.
  intros n. unfold iota1.
  apply StronglySorted_map with (R := lt); [|apply StronglySorted_seq].
  intros; lia.
Qed.

Lemma In_iota1 : forall n t, In t (iota1 n) <-> (1 <= t <= Z.of_nat n)%Z.
Proof.
  intros n t. unfold iota1. rewrite in_map_iff. split.
  - intros (k & <- & Hk). apply in_seq in Hk. lia.
  - intros H. exists (Z.to_nat (t - 1)). split; [lia|]. apply in_seq. lia.
Qed.

Lemma filter_eq_once : forall a p,
  StronglySorted Z.lt a -> In p a ->
  length (filter (fun t => (t =? p)%Z) a) = 1.
Proof.
  induction a as [|x a IH]; intros p Hs Hin; [contradiction|].
  apply StronglySorted_inv in Hs as [Hs Hx]. simpl.
  destruct (x =? p)%Z eqn:E.
  - apply Z.eqb_eq in E. subst x. simpl. f_equal.
    apply length_zero_iff_nil, filter_nil_iff.
    revert Hx. apply Forall_impl. intros t Ht. apply Z.eqb_neq. lia.
  - apply Z.eqb_neq in E. destruct Hin as [->|Hin]; [contradiction|].
    now apply IH.
Qed.

Lemma targets_length : forall n p,
  (1 <= p <= Z.of_nat n)%Z ->
  length (set_difference (iota1 n) [p]) = n - 1.
Proof.
  intros n p Hp. rewrite set_difference_single by apply iota1_sorted.
  pose proof (filter_length (fun t => (t =? p)%Z) (iota1 n)) as H.
  rewrite filter_eq_once in H
    by (apply iota1_sorted || now apply In_iota1).
  assert (Hlen : length (iota1 n) = n)
    by (unfold iota1; now rewrite length_map, length_seq).
  rewrite Hlen in H. cbv beta in H. lia.
Qed.

Section BoxDistanceProperties.
Context {double : Type} {D : DoubleOps double}.

Lemma dist_to_boxes_loop :
  forall positions (interval_length : double) num_intervals
         dist_to_lower dist_to_upper idx res,
  (forall i, In i idx ->
     (1 <= nth i positions 0 <= num_intervals)%Z) ->
  fold_left
    (fun (st : result (BoxDistances double)) i =>
       match st with
       | Stop msg => Stop msg
       | Ok res =>
           if negb (length (set_difference
                              (iota1 (Z.to_nat num_intervals))
                              [nth i positions 0%Z]) =?
                    Z.to_nat (num_intervals - 1))
           then Stop "write past the end of target_positions"
           else
             Ok (mkBoxDistances
                   (target_pos res ++
                    [set_difference (iota1 (Z.to_nat num_intervals))
                                    [nth i positions 0%Z]])
                   (target_dist res ++
                    [map (target_distance interval_length
                            (nth i positions 0%Z)
                            (nth i dist_to_lower (of_int 0))
                            (nth i dist_to_upper (of_int 0)))
                         (set_difference (iota1 (Z.to_nat num_intervals))
                                         [nth i positions 0%Z])]))
       end)
    idx (Ok res) =
  Ok (mkBoxDistances
        (target_pos res ++
         map (fun i => set_difference (iota1 (Z.to_nat num_intervals))
                                      [nth i positions 0%Z]) idx)
        (target_dist res ++
         map (fun i =>
                map (target_distance interval_length (nth i positions 0%Z)
                       (nth i dist_to_lower (of_int 0))
                       (nth i dist_to_upper (of_int 0)))
                    (set_difference (iota1 (Z.to_nat num_intervals))
                                    [nth i positions 0%Z])) idx)).
Proof.
  intros positions L n dtl dtu idx; induction idx as [|i idx IH];
    intros res Hrange.
  - simpl. rewrite !app_nil_r. now destruct res.
  - cbn [fold_left].
    rewrite targets_length by (specialize (Hrange i (or_introl eq_refl)); lia).
    replace (Z.to_nat n - 1 =? Z.to_nat (n - 1)) with true
      by (symmetry; apply Nat.eqb_eq; lia).
    cbn [negb]. rewrite IH by (intros; apply Hrange; now right).
    cbn [target_pos target_dist map]. now rewrite <- !app_assoc.
Qed.

End BoxDistanceProperties.

(** Extra X17.  [dist_to_boxes] fails when [num_intervals] is below 1.
    When every position lies in 1 .. num_intervals it returns one row per
    point; the row of targets holds the positions 1 .. num_intervals
    without the position of the point, in ascending order, that is
    num_intervals - 1 entries, and the row of distances holds the
    distance computed for each of these targets. *)
Theorem dist_to_boxes_rows :
  forall {double} {D : DoubleOps double} positions (interval_length : double)
         num_intervals dist_to_lower dist_to_upper,
  ((num_intervals < 1)%Z ->
   exists msg, dist_to_boxes positions interval_length num_intervals
                 dist_to_lower dist_to_upper = Stop msg) /\
  ((1 <= num_intervals)%Z ->
   Forall (fun pos => (1 <= pos <= num_intervals)%Z) positions ->
   length positions <= length dist_to_lower ->
   length positions <= length dist_to_upper ->
   exists res,
     dist_to_boxes positions interval_length num_intervals
       dist_to_lower dist_to_upper = Ok res /\
     length (target_pos res) = length positions /\
     length (target_dist res) = length positions /\
     forall i, i < length positions ->
       let pos := nth i positions 0%Z in
       nth i (target_pos res) [] =
         filter (fun t => negb (t =? pos)%Z)
                (iota1 (Z.to_nat num_intervals)) /\
       length (nth i (target_pos res) []) = Z.to_nat (num_intervals - 1) /\
       nth i (target_dist res) [] =
         map (target_distance interval_length pos
                (nth i dist_to_lower (of_int 0))
                (nth i dist_to_upper (of_int 0)))
             (nth i (target_pos res) [])).
Proof.
  intros double D positions L n dtl dtu. split.
  - intros Hn. unfold dist_to_boxes.
    apply Z.ltb_lt in Hn. rewrite Hn. eauto.
  - intros Hn Hpos _ _. unfold dist_to_boxes.
    replace (n <? 1)%Z with false by (symmetry; apply Z.ltb_ge; lia).
    cbv zeta.
    assert (Hrange : forall i, In i (seq 0 (length positions)) ->
                       (1 <= nth i positions 0 <= n)%Z).
    { intros i Hi. apply in_seq in Hi. rewrite Forall_forall in Hpos.
      apply Hpos, nth_In. lia. }
    rewrite (dist_to_boxes_loop positions L n dtl dtu _ _ Hrange).
    eexists. split; [reflexivity|]. cbn [target_pos target_dist app].
    split; [now rewrite length_map, length_seq|].
    split; [now rewrite length_map, length_seq|].
    intros i Hi. cbv zeta.
    rewrite !(nth_map_seq _ _ _ _ Hi).
    split; [apply set_difference_single, iota1_sorted|].
    split; [|reflexivity].
    rewrite targets_length; [lia|].
    specialize (Hrange i). rewrite in_seq in Hrange. lia.
Qed.

Lemma dist_to_boxes_rows_witness :
  exists res,
    dist_to_boxes [3%Z] 1%float 4 [0.5%float] [0.5%float] = Ok res /\
    nth 0 (target_pos res) [] = [1; 2; 4]%Z.
Proof.
  destruct (proj2 (dist_to_boxes_rows [3%Z] 1%float 4 [0.5%float] [0.5%float]))
    as (res & Hres & _ & _ & Hrows).
  - lia.
  - repeat constructor; lia.
  - simpl; lia.
  - simpl; lia.
  - exists res. split; [exact Hres|].
    destruct (Hrows 0) as (Htargets & _); [simpl; lia|].
    rewrite Htargets. reflexivity.
Defined.

(** Extra X18.  In exact arithmetic, for an interval length that is not
    negative, the distance [dist_to_boxes] computes for a target above the
    point is dist_to_upper + (target - pos - 1) * interval_length, and for
    a target below the point it is
    dist_to_lower + (pos - target + 1) * interval_length. *)
Theorem box_distance_exact :
  forall (interval_length dtl dtu : Q) (pos target : Z),
  (0 <= interval_length)%Q ->
  ((pos < target)%Z ->
   (target_distance (D := exactQ) interval_length pos dtl dtu target ==
    dtu + inject_Z (target - pos - 1) * interval_length)%Q) /\
  ((target < pos)%Z ->
   (target_distance (D := exactQ) interval_length pos dtl dtu target ==
    dtl + inject_Z (pos - target + 1) * interval_length)%Q).
Proof.
  intros L dtl dtu pos target HL. unfold target_distance.
  cbn [dadd dmul dabs of_int exactQ]. split; intros Hlt.
  - replace (target <? pos)%Z with false by (symmetry; apply Z.ltb_ge; lia).
    rewrite Qabs_pos; [reflexivity|].
    apply Qmult_le_0_compat; [|exact HL].
    change 0%Q with (inject_Z 0). rewrite <- Zle_Qle. lia.
  - replace (target <? pos)%Z with true by (symmetry; apply Z.ltb_lt; lia).
    replace (target - pos - 1)%Z with (- (pos - target + 1))%Z by lia.
    rewrite inject_Z_opp.
    assert (Hz : (0 <= inject_Z (pos - target + 1))%Q)
      by (change 0%Q with (inject_Z 0); rewrite <- Zle_Qle; lia).
    pose proof (Qmult_le_0_compat _ _ Hz HL) as Hprod.
    rewrite Qabs_neg by lra. ring.
Qed.

Lemma box_distance_exact_witness :
  (target_distance (D := exactQ) 1 2 (1 # 5) (3 # 10) 1 == 11 # 5)%Q /\
  (target_distance (D := exactQ) 1 2 (1 # 5) (3 # 10) 4 == 13 # 10)%Q.
Proof.
  assert (HL : (0 <= 1)%Q) by lra.
  destruct (box_distance_exact 1 (1 # 5) (3 # 10) 2 1 HL) as [_ Hbelow].
  destruct (box_distance_exact 1 (1 # 5) (3 # 10) 2 4 HL) as [Habove _].
  split.
  - rewrite Hbelow by lia. vm_compute. reflexivity.
  - rewrite Habove by lia. vm_compute. reflexivity.
Defined.

(* ================================================================== *)
(** * Bounds on the compacted table *)

Lemma candidate_entries_length : forall rows d,
  Forall (fun r : list Z => length r = d) rows ->
  length (flat_map (@tl Z) rows) = length rows * (d - 1).
Proof.
  intros rows d H; induction H as [|r rows Hr H IH]; simpl; [reflexivity|].
  rewrite length_app, IH. destruct r; simpl in *; lia.
Qed.

(** Extra X19.  On a candidate table with [n] rows and [d >= 1] columns
    [valid_pairs] returns at most n * (d - 1) edges, the capacity the code
    reserves; every edge goes from the own id of a row to an entry of the
    candidate columns of that same row. *)
Theorem valid_pairs_within_reserve : forall table : Matrix Z,
  well_shaped table -> 1 <= ncol table ->
  exists edges,
    valid_pairs table = Ok edges /\
    length edges <= nrow table * (ncol table - 1) /\
    Forall (fun e => exists pairs, In pairs (mrows table) /\
                       fst e = nth 0 pairs 0%Z /\ In (snd e) (tl pairs))
           edges.
Proof.
  intros table Hshape Hcol. exists (compact_pairs table).
  split; [now apply valid_pairs_spec|]. split.
  - rewrite compact_pairs_length. unfold countNonSentinel.
    etransitivity; [apply filter_length_le|].
    unfold nrow. now rewrite (candidate_entries_length _ (ncol table)).
  - apply Forall_forall. intros e He.
    apply compact_pairs_In in He as (pairs & Hrow & Hsrc & Hdst & _).
    eauto.
Qed.

Lemma valid_pairs_within_reserve_witness :
  exists edges, valid_pairs sample_table = Ok edges /\ length edges <= 6.
Proof.
  destruct (valid_pairs_within_reserve sample_table)
    as (edges & Hres & Hlen & _).
  - repeat constructor.
  - cbn; lia.
  - exists edges. split; [exact Hres | exact Hlen].
Defined.

(* ================================================================== *)
(** * Missing values in the membership functions *)

Section MissingValues.
Context {double : Type} {D : DoubleOps double}.

Lemma tested_nan_coordinate : forall lower upper d (p : list double) k,
  k < d -> dis_nan (nth k p (of_int 0)) = true ->
  tested_nan lower upper d p = true.
Proof.
  intros lower upper d p k Hk Hnan. unfold tested_nan.
  apply existsb_exists. exists k. split; [apply in_seq; lia|].
  rewrite Hnan. now rewrite orb_true_r.
Qed.

(** A point with a missing tested coordinate passes [which_true],
    whatever the bounds are. *)
Lemma missing_coordinate_listed :
  forall (x : NumericMatrix double) lower upper d r p k,
  nth_error (mrows x) r = Some p ->
  k < d -> dis_nan (nth k p (of_int 0)) = true ->
  In (Z.of_nat r + 1)%Z (which_true (map (box_test lower upper d) (mrows x))).
Proof.
  intros x lower upper d r p k Hp Hk Hnan.
  apply In_which_true_map. exists r, p.
  split; [exact Hp|]. split; [|reflexivity].
  unfold box_test. now rewrite (tested_nan_coordinate _ _ _ _ k Hk Hnan).
Qed.

End MissingValues.

(** Extra X22.  A point with a missing value (NaN or NA) among the tested
    coordinates is listed in every level set returned by
    [constructIsoAlignedLevelSets], [constructFixedLevelSets] and
    [constructRestrainedLevelSets], whatever the bounds are, and it makes
    [constructLevelSetIndex] stop with the error of the logical
    subsetting as soon as the cover has a bin. *)
Theorem missing_coordinate_in_membership :
  forall {double} {D : DoubleOps double} (x : NumericMatrix double) r p k,
  nth_error (mrows x) r = Some p ->
  dis_nan (nth k p (of_int 0)) = true ->
  (forall bnds save_bounds,
     ncol x = ncol bnds / 2 -> k < ncol bnds / 2 ->
     (exists sets,
        constructIsoAlignedLevelSets x bnds save_bounds = Ok sets /\
        length sets = nrow bnds /\
        Forall (fun ls => In (Z.of_nat r + 1)%Z (ls_points ls)) sets) /\
     (0 < nrow bnds ->
      constructLevelSetIndex x bnds = Stop subset_na_error)) /\
  (forall index_set overlap number_intervals filter_range filter_len
          interval_length step_size filter_min,
     ncol index_set <= ncol x -> k < ncol index_set ->
     Forall (fun ls => In (Z.of_nat r + 1)%Z (points_in_level_set ls))
       (constructFixedLevelSets x index_set overlap number_intervals
          filter_range filter_len) /\
     Forall (fun ls => In (Z.of_nat r + 1)%Z (points_in_level_set ls))
       (constructRestrainedLevelSets x index_set interval_length step_size
          filter_min)).
Proof.
  intros double D x r p k Hp Hnan. split.
  - intros bnds sb Hdim Hk. split.
    + eexists. split; [now apply constructIsoAlignedLevelSets_spec|].
      split; [now rewrite length_map, length_seq|].
      apply Forall_map, Forall_forall. intros i _. cbn [ls_points].
      now apply (missing_coordinate_listed x _ _ _ r p k).
    + intros Hbins. rewrite constructLevelSetIndex_spec by exact Hdim.
      replace (cover_test_nan x bnds) with true; [reflexivity|].
      symmetry. unfold cover_test_nan.
      apply existsb_exists. exists 0. split; [apply in_seq; lia|].
      apply existsb_exists. exists p.
      split; [now apply nth_error_In in Hp|].
      unfold eps_test. rewrite is_na_box_test.
      now apply (tested_nan_coordinate _ _ _ _ k).
  - intros index_set overlap ni fr fl il ss fmin _ Hk. split.
    + rewrite constructFixedLevelSets_spec.
      apply Forall_map, Forall_forall. intros i _.
      cbv zeta. cbn [points_in_level_set].
      now apply (missing_coordinate_listed x _ _ _ r p k).
    + rewrite constructRestrainedLevelSets_spec.
      apply Forall_map, Forall_forall. intros i _.
      cbv zeta. cbn [points_in_level_set].
      now apply (missing_coordinate_listed x _ _ _ r p k).
Qed.

Lemma missing_coordinate_in_membership_witness :
  constructLevelSetIndex points_with_nan unit_box = Stop subset_na_error /\
  exists sets,
    constructIsoAlignedLevelSets points_with_nan unit_box false = Ok sets /\
    Forall (fun ls => In 1%Z (ls_points ls)) sets.
Proof.
  assert (Hnan : dis_nan (nth 0 [PrimFloat.nan] (of_int 0)) = true)
    by (vm_compute; reflexivity).
  destruct (proj1 (missing_coordinate_in_membership points_with_nan 0
                     [PrimFloat.nan] 0 eq_refl Hnan)
                  unit_box false eq_refl)
    as [(sets & Hsets & _ & Hall) Hstop].
  - vm_compute; lia.
  - split; [apply Hstop; vm_compute; lia|].
    exists sets. split; [exact Hsets | exact Hall].
Defined.
